(** * Real-time transcription service: jitter buffer, connection registry,
      audio batching and the init handshake

    A shallow embedding of [src/scripts/plugin2.py]: the classes
    [JitterBuffer], [UserSession] and [ConnectionManager], and of
    [STTService] the init handshake of [handle_client], the stream handler
    [_handle_session_audio_stream] with [_handle_session_control_message],
    the audio loop [_process_session_audio], the statistics update of
    [_session_transcription_worker], [_create_wav_header] with the file
    written by [_transcribe_session_audio], and [_validate_request] with
    [handle_request]; followed by the properties stated about them.

    Python integers are unbounded, so they are modelled by [Z]; [bytes] by
    [list byte]; dictionaries by stdpp's [gmap]; a raised exception by an
    explicit error result next to the state reached when it is raised.
    Calls to the transcription service, the socket and the clock are
    outside: what they return is an input of the functions modelled. *)

From Stdlib Require Import ZArith.
From stdpp Require Import base gmap strings list fin_maps sorting.

Open Scope Z_scope.

(** Python [bytes]. *)
Abbreviation bytes := (list Byte.byte).

(* ===================================================================== *)
(** * collections.deque                                                    *)
(* ===================================================================== *)

(** The part of [collections.deque] the jitter buffer uses: the items, left
    end first, and the optional [maxlen] given at construction. *)
Module Deque.

Record deque (A : Type) : Type := mk { items : list A; maxlen : option nat }.
Arguments mk {A} _ _.
Arguments items {A} _.
Arguments maxlen {A} _.

(** [deque(maxlen=n)]: raises [ValueError] for a negative [n]. *)
Definition new_bounded {A : Type} (n : Z) : option (deque A) :=
  if n <? 0 then None else Some (mk [] (Some (Z.to_nat n))).

(** [deque(iterable)]: no [maxlen]. *)
Definition of_list {A : Type} (l : list A) : deque A := mk l None.

(** [d.append(x)]: the item is added on the right; if the deque is then
    longer than its [maxlen], one item is discarded from the left. *)
Definition append {A : Type} (d : deque A) (x : A) : deque A :=
  let l := items d ++ [x] in
  match maxlen d with
  | None => mk l None
  | Some n => if (n <? length l)%nat then mk (tail l) (Some n) else mk l (Some n)
  end.

End Deque.

(* ===================================================================== *)
(** * sorted(iterable, key=...)                                            *)
(* ===================================================================== *)

(** Python's [sorted] is stable: items with equal keys keep their relative
    order.  A stable sort is determined by that property, so it is modelled
    by a stable insertion sort on integer keys. *)
Section Sorted.
Context {A : Type} (key : A → Z).

Fixpoint insert_by_key (x : A) (l : list A) : list A :=
  match l with
  | [] => [x]
  | y :: l' => if key x <=? key y then x :: y :: l' else y :: insert_by_key x l'
  end.

Fixpoint py_sorted (l : list A) : list A :=
  match l with
  | [] => []
  | x :: l' => insert_by_key x (py_sorted l')
  end.
End Sorted.

(* ===================================================================== *)
(** * JitterBuffer                                                         *)
(* ===================================================================== *)

Record JitterBuffer : Type := mkJitterBuffer {
  buffer : Deque.deque (Z * bytes);
  sequence_number : Z;
  expected_seq : Z
}.

(** [JitterBuffer.__init__(max_size)], default [max_size = 10]. *)
Definition JitterBuffer_init (max_size : Z) : option JitterBuffer :=
  match Deque.new_bounded max_size with
  | None => None
  | Some d => Some {| buffer := d; sequence_number := 0; expected_seq := 0 |}
  end.

Definition default_max_size : Z := 10.

(** [JitterBuffer.add_frame], keeping the pair [(seq, data)] taken by
    [popleft] visible in the result.  The re-sorted buffer is a new
    [deque(sorted(...))], built without [maxlen]. *)
Definition add_frame_popped (jb : JitterBuffer) (audio_data : bytes) (seq_num : Z)
  : JitterBuffer * option (Z * bytes) :=
  let appended := Deque.append (buffer jb) (seq_num, audio_data) in
  let resorted := Deque.of_list (py_sorted fst (Deque.items appended)) in
  match Deque.items resorted with
  | (seq, data) :: rest =>
      if seq =? expected_seq jb
      then ({| buffer := Deque.mk rest (Deque.maxlen resorted);
               sequence_number := sequence_number jb;
               expected_seq := expected_seq jb + 1 |},
            Some (seq, data))
      else ({| buffer := resorted;
               sequence_number := sequence_number jb;
               expected_seq := expected_seq jb |}, None)
  | [] => ({| buffer := resorted;
              sequence_number := sequence_number jb;
              expected_seq := expected_seq jb |}, None)
  end.

(** [JitterBuffer.add_frame]: what the method returns is the payload. *)
Definition add_frame (jb : JitterBuffer) (audio_data : bytes) (seq_num : Z)
  : JitterBuffer * option bytes :=
  let '(jb', popped) := add_frame_popped jb audio_data seq_num in
  (jb', snd <$> popped).

(** [JitterBuffer.get_buffer_size]. *)
Definition get_buffer_size (jb : JitterBuffer) : nat :=
  length (Deque.items (buffer jb)).

(** The pending frames, left end first. *)
Definition pending (jb : JitterBuffer) : list (Z * bytes) :=
  Deque.items (buffer jb).

(** A sequence of [add_frame (audio_data, seq_num)] calls: the final buffer
    and, call by call, the pair released (if any). *)
Fixpoint run_popped (jb : JitterBuffer) (calls : list (bytes * Z))
  : JitterBuffer * list (option (Z * bytes)) :=
  match calls with
  | [] => (jb, [])
  | (d, s) :: calls' =>
      let '(jb1, r) := add_frame_popped jb d s in
      let '(jb2, rs) := run_popped jb1 calls' in
      (jb2, r :: rs)
  end.

(** The same sequence of calls, with what [add_frame] returns. *)
Fixpoint run (jb : JitterBuffer) (calls : list (bytes * Z))
  : JitterBuffer * list (option bytes) :=
  match calls with
  | [] => (jb, [])
  | (d, s) :: calls' =>
      let '(jb1, r) := add_frame jb d s in
      let '(jb2, rs) := run jb1 calls' in
      (jb2, r :: rs)
  end.

(** The frames released during a run, in release order. *)
Definition released {X : Type} (outs : list (option X)) : list X :=
  omap id outs.
Arguments released : simpl never.

(* ===================================================================== *)
(** * UserSession and ConnectionManager                                    *)
(* ===================================================================== *)

(** Values produced by [json.loads]; the fields of the init message are
    strings, booleans or absent, so JSON numbers are kept as integers. *)
#[warnings="-register-all"]
Inductive json : Type :=
  | JNull
  | JBool (b : bool)
  | JInt (n : Z)
  | JStr (s : string)
  | JArr (l : list json)
  | JObj (l : list (string * json)).

(** Python's [bool(v)] on such a value. *)
Definition truthy (v : json) : bool :=
  match v with
  | JNull => false
  | JBool b => b
  | JInt n => negb (n =? 0)
  | JStr s => negb (String.eqb s EmptyString)
  | JArr l => match l with [] => false | _ => true end
  | JObj l => match l with [] => false | _ => true end
  end.

(** Readings of the clock ([datetime.now()], [time.time()]); the modelled
    code only stores them. *)
Abbreviation clock := Z (only parsing).

(** A transport handle; Python hashes it by identity. *)
Abbreviation WebSocket := nat (only parsing).

(** [queue.Queue(maxsize)], holding [(timestamp, audio_data)] pairs. *)
Record Queue : Type := mkQueue {
  queue_items : list (clock * bytes);
  maxsize : Z
}.

Record ConnectionStats : Type := mkConnectionStats {
  bytes_received : Z;
  frames_processed : Z;
  reconnect_count : Z;
  avg_latency : Z;
  jitter_buffer_size : Z
}.

Definition ConnectionStats_default : ConnectionStats :=
  {| bytes_received := 0; frames_processed := 0; reconnect_count := 0;
     avg_latency := 0; jitter_buffer_size := 0 |}.

(** The dataclass [UserSession].  [language], [translate_to] and
    [display_subtitles] are assigned from the decoded init message, so they
    hold JSON values. *)
Record UserSession : Type := mkUserSession {
  session_id : string;
  connection_id : string;
  websocket : WebSocket;
  jitter_buffer : JitterBuffer;
  audio_queue : Queue;
  language : json;
  translate_to : json;
  display_subtitles : json;
  enable_translation : bool;
  created_at : clock;
  stats : ConnectionStats
}.

(** [JitterBuffer()] with the default [max_size]. *)
Definition JitterBuffer_default : JitterBuffer :=
  {| buffer := Deque.mk [] (Some (Z.to_nat default_max_size));
     sequence_number := 0; expected_seq := 0 |}.

(** [UserSession(session_id=..., connection_id=..., websocket=...,
    jitter_buffer=..., audio_queue=...)]: the other fields take the
    dataclass defaults, and [__post_init__] fills [created_at] and [stats]. *)
Definition UserSession_new (sid cid : string) (ws : WebSocket)
    (jb : JitterBuffer) (q : Queue) (now : clock) : UserSession :=
  {| session_id := sid; connection_id := cid; websocket := ws;
     jitter_buffer := jb; audio_queue := q;
     language := JStr "en"; translate_to := JNull;
     display_subtitles := JBool false; enable_translation := false;
     created_at := now; stats := ConnectionStats_default |}.

Record ConnectionManager : Type := mkConnectionManager {
  max_connections : Z;
  active_sessions : gmap string UserSession;
  connection_to_session : gmap string string;
  websocket_to_connection : gmap WebSocket string
}.

(** [ConnectionManager.__init__(max_connections)], default 50. *)
Definition ConnectionManager_init (max_connections : Z) : ConnectionManager :=
  {| max_connections := max_connections; active_sessions := ∅;
     connection_to_session := ∅; websocket_to_connection := ∅ |}.

(** What [create_session] takes from its environment: the identifiers it
    would generate from the clock and [uuid.uuid4()], and the clock. *)
Record Env : Type := mkEnv {
  fresh_session_id : string;
  fresh_connection_id : string;
  now : clock
}.

(** The two exceptions [create_session] raises. *)
Inductive CreateError : Type :=
  | MaxConnectionsExceeded (limit : Z)
  | SessionIdExists (sid : string).

(** [ConnectionManager.get_active_session_count]. *)
Definition get_active_session_count (mgr : ConnectionManager) : nat :=
  size (active_sessions mgr).

(** [ConnectionManager.create_session].  The result carries the manager as
    it is when the method returns or raises. *)
Definition create_session (mgr : ConnectionManager) (ws : WebSocket)
    (session_id connection_id : option string) (env : Env)
  : ConnectionManager * (CreateError + UserSession) :=
  if Z.of_nat (size (active_sessions mgr)) >=? max_connections mgr
  then (mgr, inl (MaxConnectionsExceeded (max_connections mgr)))
  else
    let session_id := default (fresh_session_id env) session_id in
    let connection_id := default (fresh_connection_id env) connection_id in
    match active_sessions mgr !! session_id with
    | Some _ => (mgr, inl (SessionIdExists session_id))
    | None =>
        let session :=
          UserSession_new session_id connection_id ws JitterBuffer_default
            {| queue_items := []; maxsize := 1000 |} (now env) in
        ({| max_connections := max_connections mgr;
            active_sessions := <[session_id := session]> (active_sessions mgr);
            connection_to_session :=
              <[connection_id := session_id]> (connection_to_session mgr);
            websocket_to_connection :=
              <[ws := connection_id]> (websocket_to_connection mgr) |},
         inr session)
    end.

(** [ConnectionManager.remove_session].  [if not connection_id] is also
    taken for an empty string. *)
Definition remove_session (mgr : ConnectionManager) (ws : WebSocket)
  : ConnectionManager * bool :=
  match websocket_to_connection mgr !! ws with
  | None => (mgr, false)
  | Some connection_id =>
      if String.eqb connection_id EmptyString then (mgr, false)
      else
        match connection_to_session mgr !! connection_id with
        | None => (mgr, false)
        | Some session_id =>
            if String.eqb session_id EmptyString then (mgr, false)
            else
              ({| max_connections := max_connections mgr;
                  active_sessions := delete session_id (active_sessions mgr);
                  connection_to_session :=
                    delete connection_id (connection_to_session mgr);
                  websocket_to_connection :=
                    delete ws (websocket_to_connection mgr) |}, true)
        end
  end.

(* ===================================================================== *)
(** * The init handshake of handle_client                                  *)
(* ===================================================================== *)

Inductive InitOutcome : Type :=
  | InitRejected                      (* first message is not an init message *)
  | InitRaised (e : CreateError)      (* create_session raised *)
  | InitAccepted (session : UserSession).

(** The [session_id] argument passed on to [create_session]: absent or
    [null] is [None], a string is itself.  The registry is keyed by strings
    (as [session_id: str] says); any other JSON value is outside the model. *)
Definition session_id_arg (v : option json) : option (option string) :=
  match v with
  | None | Some JNull => Some None
  | Some (JStr s) => Some (Some s)
  | Some _ => None
  end.

(** Assigning to the attributes of the session object also changes the
    object held in [active_sessions], which is the same object. *)
Definition store_session (mgr : ConnectionManager) (s : UserSession)
  : ConnectionManager :=
  {| max_connections := max_connections mgr;
     active_sessions := <[session_id s := s]> (active_sessions mgr);
     connection_to_session := connection_to_session mgr;
     websocket_to_connection := websocket_to_connection mgr |}.

(** [handle_client], from the decoded init message to the configured
    session (the replies sent on the socket are left out).  [None] only for
    a [session_id] field that is neither a string nor [null]. *)
Definition handle_init (mgr : ConnectionManager) (ws : WebSocket)
    (init_data : gmap string json) (env : Env)
  : option (ConnectionManager * InitOutcome) :=
  match init_data !! "type" with
  | Some (JStr ty) =>
      if String.eqb ty "init" then
        match session_id_arg (init_data !! "session_id") with
        | None => None
        | Some sid =>
            match create_session mgr ws sid None env with
            | (mgr1, inl e) => Some (mgr1, InitRaised e)
            | (mgr1, inr session) =>
                let language := default (JStr "en") (init_data !! "language") in
                let translate_to := default JNull (init_data !! "translate_to") in
                let enable_translation := truthy translate_to in
                let display_subtitles :=
                  default (JBool true) (init_data !! "display_subtitles") in
                let session' :=
                  {| session_id := session_id session;
                     connection_id := connection_id session;
                     websocket := websocket session;
                     jitter_buffer := jitter_buffer session;
                     audio_queue := audio_queue session;
                     language := language;
                     translate_to := translate_to;
                     display_subtitles := display_subtitles;
                     enable_translation := enable_translation;
                     created_at := created_at session;
                     stats := stats session |} in
                Some (store_session mgr1 session', InitAccepted session')
            end
        end
      else Some (mgr, InitRejected)
  | _ => Some (mgr, InitRejected)
  end.

(** The operations that change the registry, and a sequence of them. *)
Inductive RegistryOp : Type :=
  | OpCreate (ws : WebSocket) (session_id connection_id : option string) (env : Env)
  | OpRemove (ws : WebSocket)
  | OpInit (ws : WebSocket) (init_data : gmap string json) (env : Env).

Definition apply_op (mgr : ConnectionManager) (op : RegistryOp) : ConnectionManager :=
  match op with
  | OpCreate ws sid cid env => fst (create_session mgr ws sid cid env)
  | OpRemove ws => fst (remove_session mgr ws)
  | OpInit ws init_data env =>
      match handle_init mgr ws init_data env with
      | Some (mgr', _) => mgr'
      | None => mgr
      end
  end.

Definition apply_ops (mgr : ConnectionManager) (ops : list RegistryOp)
  : ConnectionManager :=
  foldl apply_op mgr ops.

(* ===================================================================== *)
(** * The per-session audio loop                                           *)
(* ===================================================================== *)

(** One [session.audio_queue.get(timeout=0.1)]: the queue is empty (the
    exception is swallowed by the bare [except]) or yields a pair. *)
Inductive Poll : Type :=
  | QueueEmpty
  | QueueItem (timestamp : clock) (audio_data : bytes).

(** The bytes one poll adds to [audio_buffer]. *)
Definition poll_bytes (p : Poll) : bytes :=
  match p with
  | QueueEmpty => []
  | QueueItem _ audio_data => audio_data
  end.

(** How an awaited call ends: it returns, or an exception that is not an
    [Exception] comes out of it (the [CancelledError] of a task cancelled
    while it waits). *)
Inductive Awaited : Type :=
  | Completed
  | Interrupted.

(** One iteration of the [while] loop of [_process_session_audio]: the new
    [audio_buffer] and the batch handed to [_transcribe_session_audio], if
    any.  [awaited] is how that call ends, should the iteration make it.
    The method catches every [Exception] itself; what still comes out of it
    is swallowed by the bare [except] of the loop, which then skips
    [audio_buffer.clear()]. *)
Definition process_iteration (audio_buffer : bytes) (p : Poll) (awaited : Awaited)
  : bytes * option bytes :=
  match p with
  | QueueEmpty => (audio_buffer, None)
  | QueueItem _ audio_data =>
      match audio_data with
      | [] => (audio_buffer, None)
      | _ :: _ =>
          let audio_buffer := audio_buffer ++ audio_data in
          if Z.of_nat (length audio_buffer) >=? 8192
          then match awaited with
               | Completed => ([], Some audio_buffer)
               | Interrupted => (audio_buffer, Some audio_buffer)
               end
          else (audio_buffer, None)
      end
  end.

(** The loop from a given [audio_buffer], over the iterations it makes:
    what each poll of the queue yields and how its awaited call ends. *)
Fixpoint process_from (audio_buffer : bytes) (iterations : list (Poll * Awaited))
  : bytes * list (option bytes) :=
  match iterations with
  | [] => (audio_buffer, [])
  | (p, awaited) :: iterations' =>
      let '(audio_buffer1, out) := process_iteration audio_buffer p awaited in
      let '(audio_buffer2, outs) := process_from audio_buffer1 iterations' in
      (audio_buffer2, out :: outs)
  end.

(** [_process_session_audio]: the loop starts with [audio_buffer = bytearray()]. *)
Definition process_session_audio (iterations : list (Poll * Awaited))
  : bytes * list (option bytes) :=
  process_from [] iterations.

(* ===================================================================== *)
(** * Notions used in the statements                                       *)
(* ===================================================================== *)

(** A call [(audio_data, seq_num)] as the pair stored in the buffer. *)
Definition frame_of (c : bytes * Z) : Z * bytes := (c.2, c.1).

(** The pending entries for one sequence number, left to right. *)
Definition entries_for (s : Z) (jb : JitterBuffer) : list (Z * bytes) :=
  filter (λ p, p.1 = s) (pending jb).

(** The states a buffer goes through: a fresh [JitterBuffer(max_size)]
    followed by any sequence of [add_frame] calls. *)
Definition reachable (jb : JitterBuffer) : Prop :=
  ∃ (max_size : Z) (jb0 : JitterBuffer) (calls : list (bytes * Z)),
    JitterBuffer_init max_size = Some jb0 ∧ (run jb0 calls).1 = jb.

(** The same, for a buffer constructed with capacity [max_size]. *)
Definition reachable_from (max_size : Z) (jb : JitterBuffer) : Prop :=
  ∃ (jb0 : JitterBuffer) (calls : list (bytes * Z)),
    JitterBuffer_init max_size = Some jb0 ∧ (run jb0 calls).1 = jb.

(** What an [Optional] result contributes to a list of results. *)
Definition opt_list {X : Type} (o : option X) : list X :=
  match o with Some x => [x] | None => [] end.

(* ===================================================================== *)
(** * ConnectionManager: lookups                                           *)
(* ===================================================================== *)

(** [ConnectionManager.get_session_by_websocket]; [if connection_id] and
    [if session_id] are false for [None] and for the empty string. *)
Definition get_session_by_websocket (mgr : ConnectionManager) (ws : WebSocket)
  : option UserSession :=
  match websocket_to_connection mgr !! ws with
  | None => None
  | Some connection_id =>
      if String.eqb connection_id EmptyString then None
      else
        match connection_to_session mgr !! connection_id with
        | None => None
        | Some session_id =>
            if String.eqb session_id EmptyString then None
            else active_sessions mgr !! session_id
        end
  end.

(** [ConnectionManager.get_session_by_id]. *)
Definition get_session_by_id (mgr : ConnectionManager) (session_id : string)
  : option UserSession :=
  active_sessions mgr !! session_id.

(** The three maps describe the same sessions: a websocket leads to its
    connection, the connection to its session, and every active session is
    registered under its own identifiers. *)
Definition registry_consistent (mgr : ConnectionManager) : Prop :=
  (∀ ws c, websocket_to_connection mgr !! ws = Some c →
     ∃ s, connection_to_session mgr !! c = Some (session_id s)
          ∧ active_sessions mgr !! session_id s = Some s
          ∧ websocket s = ws ∧ connection_id s = c)
  ∧ (∀ c id, connection_to_session mgr !! c = Some id →
     ∃ s, active_sessions mgr !! id = Some s
          ∧ connection_id s = c
          ∧ websocket_to_connection mgr !! websocket s = Some c)
  ∧ (∀ id s, active_sessions mgr !! id = Some s →
     session_id s = id
     ∧ connection_to_session mgr !! connection_id s = Some id).

(* ===================================================================== *)
(** * queue.Queue                                                          *)
(* ===================================================================== *)

(** [Queue.full()]: [0 < maxsize <= qsize()]. *)
Definition queue_full (q : Queue) : bool :=
  (0 <? maxsize q) && (maxsize q <=? Z.of_nat (length (queue_items q))).

(** [Queue.put(item)] on a queue that is not full (the only way the
    handler calls it). *)
Definition queue_put (q : Queue) (item : Z * bytes) : Queue :=
  {| queue_items := queue_items q ++ [item]; maxsize := maxsize q |}.

(** [Queue.get(timeout=0.1)] as the audio loop sees it: the oldest item, or
    [Empty] once the timeout has passed. *)
Definition queue_get (q : Queue) : Queue * Poll :=
  match queue_items q with
  | [] => (q, QueueEmpty)
  | (timestamp, audio_data) :: rest =>
      ({| queue_items := rest; maxsize := maxsize q |},
       QueueItem timestamp audio_data)
  end.

(* ===================================================================== *)
(** * Control messages and the audio stream of a session                   *)
(* ===================================================================== *)

(** What the handler sends back on the socket. *)
Inductive Reply : Type :=
  | ControlResponse (sid : string) (action : string)
      (translation_enabled : option bool)
  | Pong (sid : string) (timestamp : Z)
  | Ack (sid : string) (sequence : Z) (timestamp : Z)
  | ErrorReply (sid : string).

Definition set_display_subtitles (s : UserSession) (v : json) : UserSession :=
  {| session_id := session_id s; connection_id := connection_id s;
     websocket := websocket s; jitter_buffer := jitter_buffer s;
     audio_queue := audio_queue s; language := language s;
     translate_to := translate_to s; display_subtitles := v;
     enable_translation := enable_translation s;
     created_at := created_at s; stats := stats s |}.

Definition set_translation (s : UserSession) (enabled : bool) (target : json)
  : UserSession :=
  {| session_id := session_id s; connection_id := connection_id s;
     websocket := websocket s; jitter_buffer := jitter_buffer s;
     audio_queue := audio_queue s; language := language s;
     translate_to := target; display_subtitles := display_subtitles s;
     enable_translation := enabled;
     created_at := created_at s; stats := stats s |}.

Definition set_audio_state (s : UserSession) (st : ConnectionStats)
    (jb : JitterBuffer) (q : Queue) : UserSession :=
  {| session_id := session_id s; connection_id := connection_id s;
     websocket := websocket s; jitter_buffer := jb;
     audio_queue := q; language := language s;
     translate_to := translate_to s; display_subtitles := display_subtitles s;
     enable_translation := enable_translation s;
     created_at := created_at s; stats := st |}.

(** The value assigned to [enable_translation] by a control message:
    [message.get("enabled", False)].  The field of the session is modelled
    as a boolean; any other JSON value is outside the model. *)
Definition enabled_arg (v : option json) : option bool :=
  match v with
  | None => Some false
  | Some (JBool b) => Some b
  | Some _ => None
  end.

(** [_handle_session_control_message]: the session afterwards and the
    reply sent.  [now] is the reading of [time.time()] used by [pong].
    [None] only for an [enabled] field that is not a boolean. *)
Definition handle_session_control_message
    (session : UserSession) (now : Z) (message : gmap string json)
  : option (UserSession * list Reply) :=
  match message !! "type" with
  | Some (JStr msg_type) =>
      if String.eqb msg_type "start_display" then
        Some (set_display_subtitles session (JBool true),
              [ControlResponse (session_id session) "start_display" None])
      else if String.eqb msg_type "stop_display" then
        Some (set_display_subtitles session (JBool false),
              [ControlResponse (session_id session) "stop_display" None])
      else if String.eqb msg_type "enable_translation" then
        match enabled_arg (message !! "enabled") with
        | None => None
        | Some enabled =>
            let target := default (JStr "zh") (message !! "target_lang") in
            Some (set_translation session enabled target,
                  [ControlResponse (session_id session) "enable_translation"
                     (Some enabled)])
        end
      else if String.eqb msg_type "ping" then
        Some (session, [Pong (session_id session) now])
      else Some (session, [])
  | _ => Some (session, [])
  end.

(** One message read from the socket, with the reading of the clock at
    that moment.  A text message carries the result of [json.loads]:
    [None] when decoding raises or the value is not an object, in which
    case the handler raises before it changes anything. *)
Inductive Message : Type :=
  | TextMessage (now : Z) (decoded : option (gmap string json))
  | BinaryMessage (now : Z) (data : bytes).

(** The body of the [async for] loop of [_handle_session_audio_stream]:
    the session, the local [sequence_number] and the replies afterwards. *)
Definition handle_stream_message
    (session : UserSession) (sequence_number : Z) (m : Message)
  : option (UserSession * Z * list Reply) :=
  match m with
  | TextMessage now None =>
      Some (session, sequence_number, [ErrorReply (session_id session)])
  | TextMessage now (Some message) =>
      match handle_session_control_message session now message with
      | None => None
      | Some (session', replies) => Some (session', sequence_number, replies)
      end
  | BinaryMessage timestamp message =>
      let stats' :=
        {| bytes_received :=
             bytes_received (stats session) + Z.of_nat (length message);
           frames_processed := frames_processed (stats session) + 1;
           reconnect_count := reconnect_count (stats session);
           avg_latency := avg_latency (stats session);
           jitter_buffer_size := jitter_buffer_size (stats session) |} in
      let '(jb', buffered_data) :=
        add_frame (jitter_buffer session) message sequence_number in
      let queue' :=
        match buffered_data with
        | Some (b :: data) =>
            if queue_full (audio_queue session) then audio_queue session
            else queue_put (audio_queue session) (timestamp, b :: data)
        | _ => audio_queue session
        end in
      let sequence_number' := sequence_number + 1 in
      Some (set_audio_state session stats' jb' queue', sequence_number',
            [Ack (session_id session) (sequence_number' - 1) timestamp])
  end.

(** What goes on for one session after the handshake: a message is read
    and handled, the audio task runs one iteration of its loop, or the
    statistics task refreshes [jitter_buffer_size].  Each of them runs
    without interruption up to its next [await]. *)
Inductive Event : Type :=
  | Receive (m : Message)
  | AudioPoll (awaited : Awaited)
  | StatsTick.

Record SessionRun : Type := mkSessionRun {
  run_session : UserSession;
  run_sequence_number : Z;      (* local to _handle_session_audio_stream *)
  run_audio_buffer : bytes;     (* local to _process_session_audio *)
  run_replies : list Reply;     (* sent so far, oldest first *)
  run_batches : list (bytes * Awaited)
                                (* handed to transcription, oldest first,
                                   each with how its call ended *)
}.

(** The start of the three tasks: [sequence_number = 0], an empty
    [audio_buffer]. *)
Definition session_start (session : UserSession) : SessionRun :=
  {| run_session := session; run_sequence_number := 0;
     run_audio_buffer := []; run_replies := []; run_batches := [] |}.

Definition session_step (st : SessionRun) (e : Event) : option SessionRun :=
  match e with
  | Receive m =>
      match handle_stream_message (run_session st) (run_sequence_number st) m with
      | None => None
      | Some (session', sequence_number', replies) =>
          Some {| run_session := session';
                  run_sequence_number := sequence_number';
                  run_audio_buffer := run_audio_buffer st;
                  run_replies := run_replies st ++ replies;
                  run_batches := run_batches st |}
      end
  | AudioPoll awaited =>
      let s := run_session st in
      let '(queue', poll) := queue_get (audio_queue s) in
      let '(audio_buffer', batch) :=
        process_iteration (run_audio_buffer st) poll awaited in
      Some {| run_session := set_audio_state s (stats s) (jitter_buffer s) queue';
              run_sequence_number := run_sequence_number st;
              run_audio_buffer := audio_buffer';
              run_replies := run_replies st;
              run_batches :=
                run_batches st ++ ((λ b, (b, awaited)) <$> opt_list batch) |}
  | StatsTick =>
      let s := run_session st in
      let stats' :=
        {| bytes_received := bytes_received (stats s);
           frames_processed := frames_processed (stats s);
           reconnect_count := reconnect_count (stats s);
           avg_latency := avg_latency (stats s);
           jitter_buffer_size := Z.of_nat (get_buffer_size (jitter_buffer s)) |} in
      Some {| run_session := set_audio_state s stats' (jitter_buffer s) (audio_queue s);
              run_sequence_number := run_sequence_number st;
              run_audio_buffer := run_audio_buffer st;
              run_replies := run_replies st;
              run_batches := run_batches st |}
  end.

Fixpoint session_run (st : SessionRun) (events : list Event) : option SessionRun :=
  match events with
  | [] => Some st
  | e :: events' =>
      match session_step st e with
      | None => None
      | Some st' => session_run st' events'
      end
  end.

(** The binary frames among the events, in arrival order. *)
Definition frame_of_event (e : Event) : option bytes :=
  match e with
  | Receive (BinaryMessage _ data) => Some data
  | _ => None
  end.

Definition binary_frames (events : list Event) : list bytes :=
  omap frame_of_event events.

(** The sequence numbers acknowledged, in the order of the replies. *)
Definition ack_of_reply (r : Reply) : option Z :=
  match r with
  | Ack _ sequence _ => Some sequence
  | _ => None
  end.

Definition acked (replies : list Reply) : list Z := omap ack_of_reply replies.

(** Control messages inside the model: [enabled], when present in an
    [enable_translation] message, is a boolean. *)
Definition event_in_model (e : Event) : Prop :=
  match e with
  | Receive (TextMessage _ (Some message)) =>
      message !! "type" = Some (JStr "enable_translation") →
      is_Some (enabled_arg (message !! "enabled"))
  | _ => True
  end.

(** The batches whose transcription call returned. *)
Definition completed_batches (batches : list (bytes * Awaited)) : list bytes :=
  omap (λ ba : bytes * Awaited,
          match ba.2 with Completed => Some ba.1 | Interrupted => None end)
       batches.

(** The audio loop of this event, if it is one, makes a call that returns. *)
Definition event_completes (e : Event) : Prop :=
  match e with
  | AudioPoll Interrupted => False
  | _ => True
  end.

(** The audio bytes of a session, oldest first: the batches whose call
    returned, the accumulator of the audio loop, and the frames waiting in
    the queue. *)
Definition bytes_in_flight (st : SessionRun) : bytes :=
  concat (completed_batches (run_batches st)) ++ run_audio_buffer st
  ++ concat (queue_items (audio_queue (run_session st))).*2.

(** The jitter buffer holds nothing and expects the sequence number the
    handler will give to the next frame. *)
Definition in_sync (st : SessionRun) : Prop :=
  pending (jitter_buffer (run_session st)) = []
  ∧ Deque.maxlen (buffer (jitter_buffer (run_session st))) ≠ Some 0%nat
  ∧ expected_seq (jitter_buffer (run_session st)) = run_sequence_number st.

(* ===================================================================== *)
(** * The WAV header                                                       *)
(* ===================================================================== *)

(** The dataclass [AudioConfig] with its defaults. *)
Record AudioConfig : Type := mkAudioConfig {
  sample_rate : Z;
  channels : Z;
  encoding : string;
  bitrate : Z;
  frame_duration : Z;
  buffer_size : Z
}.

Definition AudioConfig_default : AudioConfig :=
  {| sample_rate := 16000; channels := 1; encoding := "opus";
     bitrate := 32000; frame_duration := 20; buffer_size := 1024 |}.

Definition byte_of_Z (z : Z) : Byte.byte :=
  default Byte.x00 (Byte.of_N (Z.to_N z)).

Definition Z_of_byte (b : Byte.byte) : Z := Z.of_N (Byte.to_N b).

(** The [n] little-endian bytes of [v]. *)
Fixpoint le_bytes (n : nat) (v : Z) : bytes :=
  match n with
  | O => []
  | S n' => byte_of_Z (v mod 256) :: le_bytes n' (v / 256)
  end.

(** [struct.pack] of one unsigned field of [n] bytes in a ['<'] format
    ([H]: 2 bytes, [I]: 4 bytes); [struct.error] when out of range. *)
Definition pack_uint (n : nat) (v : Z) : option bytes :=
  if (0 <=? v) && (v <? 2 ^ (8 * Z.of_nat n)) then Some (le_bytes n v) else None.

(** The number a little-endian byte string stands for. *)
Definition le_value (l : bytes) : Z :=
  foldr (λ b acc, Z_of_byte b + 256 * acc) 0 l.

(** [STTService._create_wav_header]:
    [struct.pack('<4sI4s4sIHHIIHH4sI', ...)]. *)
Definition create_wav_header
    (data_size channels sample_rate bits_per_sample : Z) : option bytes :=
  let byte_rate := sample_rate * channels * bits_per_sample / 8 in
  let block_align := channels * bits_per_sample / 8 in
  riff_size ← pack_uint 4 (36 + data_size);
  fmt_size ← pack_uint 4 16;
  audio_format ← pack_uint 2 1;
  f_channels ← pack_uint 2 channels;
  f_sample_rate ← pack_uint 4 sample_rate;
  f_byte_rate ← pack_uint 4 byte_rate;
  f_block_align ← pack_uint 2 block_align;
  f_bits ← pack_uint 2 bits_per_sample;
  f_data_size ← pack_uint 4 data_size;
  Some (String.list_byte_of_string "RIFF" ++ riff_size
        ++ String.list_byte_of_string "WAVE" ++ String.list_byte_of_string "fmt "
        ++ fmt_size ++ audio_format ++ f_channels ++ f_sample_rate
        ++ f_byte_rate ++ f_block_align ++ f_bits
        ++ String.list_byte_of_string "data" ++ f_data_size).

(** The bytes written to the temporary file by
    [_transcribe_session_audio]: the header for [len(audio_data)] bytes of
    16-bit samples, then the audio. *)
Definition wav_file (cfg : AudioConfig) (audio_data : bytes) : option bytes :=
  wav_header ← create_wav_header (Z.of_nat (length audio_data))
                  (channels cfg) (sample_rate cfg) 16;
  Some (wav_header ++ audio_data).

(** The [len] bytes of a file at [offset]. *)
Definition field (h : bytes) (offset len : nat) : bytes :=
  take len (drop offset h).

(* ===================================================================== *)
(** * Request validation                                                   *)
(* ===================================================================== *)

(** The dataclass [APIRequest]. *)
Record APIRequest : Type := mkAPIRequest {
  version : json;
  request_id : json;
  source : json;
  intent : json;
  expect : json
}.

(** The exceptions of [_validate_request]: the two [ValueError]s it
    raises, and the [TypeError] of the [APIRequest] constructor, called
    with the keys of [request_data] as keyword arguments, for a key that is
    not a field. *)
Inductive ValidationError : Type :=
  | MissingField (name : string)
  | VersionMismatch (received : json)
  | UnexpectedKeyword.

Definition required_fields : list string :=
  ["version"; "request_id"; "source"; "intent"; "expect"].

(** [request_data["version"] != self.version], for a version that is
    present. *)
Definition version_differs (service_version : string) (v : json) : bool :=
  match v with
  | JStr s => negb (String.eqb s service_version)
  | _ => true
  end.

(** [STTService._validate_request]: the loop over the required fields
    raises for the first one that is missing; then the version is compared;
    then the [APIRequest] is built from the keys of [request_data]. *)
Definition validate_request
    (service_version : string) (request_data : gmap string json)
  : ValidationError + APIRequest :=
  match request_data !! "version" with
  | None => inl (MissingField "version")
  | Some v =>
  match request_data !! "request_id" with
  | None => inl (MissingField "request_id")
  | Some r =>
  match request_data !! "source" with
  | None => inl (MissingField "source")
  | Some s =>
  match request_data !! "intent" with
  | None => inl (MissingField "intent")
  | Some i =>
  match request_data !! "expect" with
  | None => inl (MissingField "expect")
  | Some e =>
      if version_differs service_version v then inl (VersionMismatch v)
      else if bool_decide (dom request_data ⊆ list_to_set required_fields)
      then inr {| version := v; request_id := r; source := s;
                  intent := i; expect := e |}
      else inl UnexpectedKeyword
  end end end end end.

(** [self.version] as set by [STTService.__init__]. *)
Definition service_version : string := "1.0.0".

(** How a call made inside [handle_request] ends. *)
Inductive Outcome (A : Type) : Type :=
  | Returned (a : A)
  | RaisedValueError
  | RaisedException.
Arguments Returned {A} _.
Arguments RaisedValueError {A}.
Arguments RaisedException {A}.

(** The response dictionaries of [_build_response] and
    [_build_error_response]; [result] is [None] for the empty dictionary of
    an error response.  The text of [info.description] is left out. *)
Record APIResponse : Type := mkAPIResponse {
  response_request_id : json;
  response_result : option json;
  status_code : Z
}.

(** [STTService.handle_request], with the outcome of [_process_intent]
    given for each validated request; [fresh_uuid] is the [uuid4] drawn
    for a request without [request_id]. *)
Definition handle_request
    (process_intent : APIRequest → Outcome json) (fresh_uuid : string)
    (request_data : gmap string json) : APIResponse :=
  let error_id := default (JStr fresh_uuid) (request_data !! "request_id") in
  match validate_request service_version request_data with
  | inl (MissingField _) | inl (VersionMismatch _) =>
      {| response_request_id := error_id; response_result := None;
         status_code := 400 |}
  | inl UnexpectedKeyword =>
      {| response_request_id := error_id; response_result := None;
         status_code := 500 |}
  | inr api_request =>
      match process_intent api_request with
      | Returned result =>
          {| response_request_id := request_id api_request;
             response_result := Some result; status_code := 200 |}
      | RaisedValueError =>
          {| response_request_id := error_id; response_result := None;
             status_code := 400 |}
      | RaisedException =>
          {| response_request_id := error_id; response_result := None;
             status_code := 500 |}
      end
  end.

(** The pending frames are in the order of their sequence numbers. *)
Definition sorted_by_seq (l : list (Z * bytes)) : Prop :=
  StronglySorted (λ p q : Z * bytes, p.1 ≤ q.1) l.

(** An environment and a manager holding one session, for the examples. *)
Definition example_env : Env :=
  {| fresh_session_id := "session_1_0a1b2c3d";
     fresh_connection_id := "c0ffee";
     now := 0 |}.

Definition example_manager (ceiling : Z) : ConnectionManager :=
  (create_session (ConnectionManager_init ceiling) 1%nat (Some "alice") None
     example_env).1.

(** A session as [create_session] makes it, and a short run of events. *)
Definition example_session : UserSession :=
  UserSession_new "alice" "c0ffee" 1%nat JitterBuffer_default
    {| queue_items := []; maxsize := 1000 |} 0.

Definition example_events : list Event :=
  [ Receive (BinaryMessage 5 [Byte.x01; Byte.x02]);
    Receive (TextMessage 6 (Some {[ "type" := JStr "ping" ]}));
    AudioPoll Completed;
    StatsTick;
    Receive (BinaryMessage 7 [Byte.x03]) ].

(* ===================================================================== *)
(** * Facts about the stable sort                                          *)
(* ===================================================================== *)

Section SortedFacts.
Context {A : Type} (key : A → Z).

Lemma insert_by_key_perm (x : A) (l : list A) :
  insert_by_key key x l ≡ₚ x :: l.
Proof.
  induction l as [|y l IH]; simpl; [done|].
  destruct (key x <=? key y); [done|].
  rewrite IH. apply perm_swap.
Qed.

Lemma py_sorted_perm (l : list A) : py_sorted key l ≡ₚ l.
Proof.
  induction l as [|x l IH]; simpl; [done|].
  by rewrite insert_by_key_perm, IH.
Qed.

Lemma py_sorted_length (l : list A) : length (py_sorted key l) = length l.
Proof. apply Permutation_length, py_sorted_perm. Qed.

(** The head of an insertion is the new item or the old head, whichever
    has the smaller key. *)
Lemma insert_by_key_head_le (x h : A) (l t : list A) :
  insert_by_key key x l = h :: t →
  key h ≤ key x ∧ (∀ h0 t0, l = h0 :: t0 → key h ≤ key h0).
Proof.
  destruct l as [|y l]; simpl.
  - intros [= <- <-]. split; [lia|]. intros ? ? [=].
  - destruct (key x <=? key y) eqn:E.
    + intros [= <- <-]. apply Z.leb_le in E. split; [lia|].
      intros ? ? [= <- <-]. lia.
    + intros [= <- <-]. apply Z.leb_gt in E. split; [lia|].
      intros ? ? [= <- <-]. lia.
Qed.

(** The head of the sorted list has the least key. *)
Lemma py_sorted_head_min (l : list A) (h : A) (t : list A) :
  py_sorted key l = h :: t → ∀ y, y ∈ l → key h ≤ key y.
Proof.
  revert h t. induction l as [|x l IH]; simpl; intros h t E y Hy.
  - by apply elem_of_nil in Hy.
  - apply insert_by_key_head_le in E as [Hx Hl].
    apply elem_of_cons in Hy as [->|Hy]; [done|].
    destruct (py_sorted key l) as [|h0 t0] eqn:El.
    + rewrite <- (py_sorted_perm l), El in Hy. by apply elem_of_nil in Hy.
    + specialize (Hl h0 t0 eq_refl). specialize (IH h0 t0 eq_refl y Hy). lia.
Qed.

(** Stability: the items with a given key keep their order. *)
Lemma insert_by_key_filter (s : Z) (x : A) (l : list A) :
  filter (λ y, key y = s) (insert_by_key key x l)
  = filter (λ y, key y = s) (x :: l).
Proof.
  induction l as [|y l IH]; simpl; [done|].
  destruct (key x <=? key y) eqn:E; [done|].
  apply Z.leb_gt in E.
  rewrite filter_cons, IH, !filter_cons.
  repeat case_decide; try done; lia.
Qed.

Lemma py_sorted_filter (s : Z) (l : list A) :
  filter (λ y, key y = s) (py_sorted key l) = filter (λ y, key y = s) l.
Proof.
  induction l as [|x l IH]; simpl; [done|].
  by rewrite insert_by_key_filter, !filter_cons, IH.
Qed.
End SortedFacts.

(* ===================================================================== *)
(** * JitterBuffer: one call                                               *)
(* ===================================================================== *)

Lemma append_unbounded {A : Type} (d : Deque.deque A) (x : A) :
  Deque.maxlen d = None → Deque.items (Deque.append d x) = Deque.items d ++ [x].
Proof. unfold Deque.append. by intros ->. Qed.

(** [append] keeps everything except, possibly, the leftmost item. *)
Lemma append_dropped {A : Type} (d : Deque.deque A) (x : A) :
  ∃ dropped, dropped ++ Deque.items (Deque.append d x) = Deque.items d ++ [x].
Proof.
  unfold Deque.append. destruct (Deque.maxlen d) as [n|]; [|by exists []].
  destruct (n <? _)%nat; [|by exists []].
  destruct (Deque.items d ++ [x]) as [|y l]; [by exists []|by exists [y]].
Qed.

(** The two ways a call ends: the sorted buffer starts with
    [expected_seq], which is released, or nothing is released. *)
Lemma add_frame_popped_cases (jb : JitterBuffer) (d : bytes) (s : Z) :
  let l := py_sorted fst (Deque.items (Deque.append (buffer jb) (s, d))) in
  (∃ x rest, l = (expected_seq jb, x) :: rest ∧
     add_frame_popped jb d s =
       ({| buffer := Deque.mk rest None; sequence_number := sequence_number jb;
           expected_seq := expected_seq jb + 1 |}, Some (expected_seq jb, x)))
  ∨ ((∀ x rest, l ≠ (expected_seq jb, x) :: rest) ∧
     add_frame_popped jb d s =
       ({| buffer := Deque.mk l None; sequence_number := sequence_number jb;
           expected_seq := expected_seq jb |}, None)).
Proof.
  intros l. unfold add_frame_popped. simpl. fold l.
  destruct l as [|[q x] rest].
  - right. split; [by intros ? ? [=]|done].
  - destruct (q =? expected_seq jb) eqn:E.
    + apply Z.eqb_eq in E as ->. left. by exists x, rest.
    + apply Z.eqb_neq in E. right. split; [|done]. intros ? ? [= ? ? ?]. done.
Qed.

Lemma add_frame_popped_maxlen (jb jb' : JitterBuffer) (d : bytes) (s : Z) r :
  add_frame_popped jb d s = (jb', r) → Deque.maxlen (buffer jb') = None.
Proof.
  destruct (add_frame_popped_cases jb d s) as [(x & rest & _ & E)|[_ E]];
    rewrite E; by intros [= <- <-].
Qed.

(** Frames are neither duplicated nor invented by a call. *)
Lemma add_frame_popped_perm (jb jb' : JitterBuffer) (d : bytes) (s : Z) r :
  add_frame_popped jb d s = (jb', r) →
  ∃ dropped, opt_list r ++ pending jb' ++ dropped ≡ₚ pending jb ++ [(s, d)].
Proof.
  destruct (append_dropped (buffer jb) (s, d)) as [dropped Hd].
  intros E. exists dropped. unfold pending. rewrite <- Hd.
  destruct (add_frame_popped_cases jb d s) as [(x & rest & Hl & E')|[_ E']];
    rewrite E' in E; injection E as <- <-; simpl.
  - rewrite (Permutation_app_comm dropped), app_comm_cons, <- Hl.
    apply Permutation_app_tail, py_sorted_perm.
  - rewrite (Permutation_app_comm dropped). apply Permutation_app_tail.
    apply py_sorted_perm.
Qed.

Lemma add_frame_popped_size (jb jb' : JitterBuffer) (d : bytes) (s : Z) r :
  Deque.maxlen (buffer jb) = None →
  add_frame_popped jb d s = (jb', r) →
  (get_buffer_size jb' + length (opt_list r) = S (get_buffer_size jb))%nat.
Proof.
  intros Hm E. unfold get_buffer_size.
  assert (Hlen : length (py_sorted fst (Deque.items (Deque.append (buffer jb) (s, d))))
                 = S (length (Deque.items (buffer jb)))).
  { rewrite py_sorted_length, append_unbounded by done.
    rewrite length_app. simpl. lia. }
  destruct (add_frame_popped_cases jb d s) as [(x & rest & Hl & E')|[_ E']];
    rewrite E' in E; injection E as <- <-; simpl.
  - rewrite Hl in Hlen. simpl in Hlen. lia.
  - lia.
Qed.

(** [add_frame] returns the payload of the released pair. *)
Lemma add_frame_unfold (jb : JitterBuffer) (d : bytes) (s : Z) :
  add_frame jb d s = ((add_frame_popped jb d s).1, snd <$> (add_frame_popped jb d s).2).
Proof. unfold add_frame. by destruct (add_frame_popped jb d s). Qed.

Lemma run_unfold (jb : JitterBuffer) (calls : list (bytes * Z)) :
  run jb calls =
  ((run_popped jb calls).1,
   (λ o : option (Z * bytes), snd <$> o) <$> (run_popped jb calls).2).
Proof.
  revert jb. induction calls as [|[d s] calls IH]; intros jb; simpl; [done|].
  rewrite add_frame_unfold. destruct (add_frame_popped jb d s) as [jb1 r]. simpl.
  rewrite IH. by destruct (run_popped jb1 calls).
Qed.

Lemma released_fmap {X Y : Type} (f : X → Y) (outs : list (option X)) :
  released ((λ o : option X, f <$> o) <$> outs) = f <$> released outs.
Proof.
  unfold released. induction outs as [|[x|] outs IH]; simpl; [done| |done].
  f_equal. exact IH.
Qed.

(* ===================================================================== *)
(** * JitterBuffer: sequences of calls                                     *)
(* ===================================================================== *)

Lemma released_cons {X : Type} (o : option X) (outs : list (option X)) :
  released (o :: outs) = opt_list o ++ released outs.
Proof. by destruct o. Qed.

Lemma run_popped_length (jb : JitterBuffer) (calls : list (bytes * Z)) :
  length (run_popped jb calls).2 = length calls.
Proof.
  revert jb. induction calls as [|[d s] calls IH]; intros jb; simpl; [done|].
  destruct (add_frame_popped jb d s) as [jb1 r].
  specialize (IH jb1). destruct (run_popped jb1 calls). simpl in *. by rewrite IH.
Qed.

(** The released sequence numbers count up from [expected_seq]. *)
Lemma run_popped_seqs (jb : JitterBuffer) (calls : list (bytes * Z)) :
  (released (run_popped jb calls).2).*1
    = seqZ (expected_seq jb) (Z.of_nat (length (released (run_popped jb calls).2)))
  ∧ expected_seq (run_popped jb calls).1
    = expected_seq jb + Z.of_nat (length (released (run_popped jb calls).2)).
Proof.
  revert jb. induction calls as [|[d s] calls IH]; intros jb; simpl.
  - split; [done|lia].
  - destruct (add_frame_popped_cases jb d s) as [(x & rest & _ & E)|[_ E]];
      rewrite E; clear E;
      match goal with |- context [run_popped ?j calls] =>
        specialize (IH j); destruct (run_popped j calls) as [jb2 rs] end;
      cbn [fst snd expected_seq] in *; destruct IH as [IH1 IH2];
      rewrite released_cons; cbn [opt_list app length fmap list_fmap fst].
    + split; [|lia]. rewrite seqZ_cons by lia. f_equal.
      rewrite IH1. f_equal; lia.
    + done.
Qed.

(** Every released or pending frame is one of the frames that came in,
    counted with multiplicity. *)
Lemma run_popped_perm (jb : JitterBuffer) (calls : list (bytes * Z)) :
  ∃ dropped,
    released (run_popped jb calls).2 ++ pending (run_popped jb calls).1 ++ dropped
    ≡ₚ pending jb ++ (frame_of <$> calls).
Proof.
  revert jb. induction calls as [|[d s] calls IH]; intros jb; simpl.
  - exists []. by rewrite !app_nil_r.
  - destruct (add_frame_popped jb d s) as [jb1 r] eqn:E.
    destruct (IH jb1) as [dr Hdr]. destruct (run_popped jb1 calls) as [jb2 rs].
    destruct (add_frame_popped_perm _ _ _ _ _ E) as [dr1 H1].
    exists (dr ++ dr1). simpl in *. rewrite released_cons.
    transitivity (opt_list r ++ (released rs ++ pending jb2 ++ dr) ++ dr1).
    { solve_Permutation. }
    rewrite Hdr.
    transitivity ((opt_list r ++ pending jb1 ++ dr1) ++ (frame_of <$> calls)).
    { solve_Permutation. }
    rewrite H1. unfold frame_of at 2. simpl. by rewrite <- app_assoc.
Qed.

(** After the first call the buffer is a plain [deque]; before it, the
    buffer is empty and nothing has been released. *)
Lemma reachable_shape (jb : JitterBuffer) :
  reachable jb →
  Deque.maxlen (buffer jb) = None ∨ (expected_seq jb = 0 ∧ pending jb = []).
Proof.
  intros (max_size & jb0 & calls & Hinit & <-).
  destruct calls as [|[d s] calls].
  - right. unfold JitterBuffer_init, Deque.new_bounded in Hinit.
    destruct (max_size <? 0); [done|]. by injection Hinit as <-.
  - left. clear Hinit. rewrite run_unfold. simpl.
    destruct (add_frame_popped jb0 d s) as [jb1 r] eqn:E.
    apply add_frame_popped_maxlen in E. clear jb0.
    revert jb1 r E. induction calls as [|[d' s'] calls IH]; intros jb1 r E; simpl.
    + done.
    + destruct (add_frame_popped jb1 d' s') as [jb2 r'] eqn:E'.
      apply add_frame_popped_maxlen in E'. specialize (IH jb2 r' E').
      by destruct (run_popped jb2 calls).
Qed.

Lemma reachable_expected_nonneg (jb : JitterBuffer) :
  reachable jb → 0 ≤ expected_seq jb.
Proof.
  intros (max_size & jb0 & calls & Hinit & <-).
  rewrite run_unfold. simpl.
  destruct (run_popped_seqs jb0 calls) as [_ ->].
  unfold JitterBuffer_init, Deque.new_bounded in Hinit.
  destruct (max_size <? 0); [done|]. injection Hinit as <-. simpl. lia.
Qed.

Lemma reachable_step (jb : JitterBuffer) (d : bytes) (s : Z) :
  reachable jb → reachable (add_frame jb d s).1.
Proof.
  intros (max_size & jb0 & calls & Hinit & <-).
  exists max_size, jb0, (calls ++ [(d, s)]). split; [done|].
  clear Hinit. revert jb0. induction calls as [|[d' s'] calls IH]; intros jb0; simpl.
  - by destruct (add_frame jb0 d s).
  - destruct (add_frame jb0 d' s') as [jb1 r]. specialize (IH jb1).
    destruct (run jb1 (calls ++ [(d, s)])), (run jb1 calls). done.
Qed.

(** Once the buffer has been re-sorted nothing is evicted any more: every
    frame that comes in is pending or has been released. *)
Lemma run_popped_size_unbounded (jb : JitterBuffer) (calls : list (bytes * Z)) :
  Deque.maxlen (buffer jb) = None →
  (get_buffer_size (run_popped jb calls).1
   + length (released (run_popped jb calls).2)
   = get_buffer_size jb + length calls)%nat.
Proof.
  revert jb. induction calls as [|[d s] calls IH]; intros jb Hm; simpl.
  - unfold released. simpl. lia.
  - destruct (add_frame_popped jb d s) as [jb1 r] eqn:E.
    pose proof (add_frame_popped_size _ _ _ _ _ Hm E) as Hsz.
    apply add_frame_popped_maxlen in E. specialize (IH jb1 E).
    destruct (run_popped jb1 calls) as [jb2 rs]. simpl in *.
    rewrite released_cons, length_app. lia.
Qed.

(** Whatever the capacity, only the first call of a run can lose a frame:
    the depth is not bounded by the capacity. *)
Lemma run_popped_size_lower (jb0 : JitterBuffer) (calls : list (bytes * Z)) :
  (length calls
   ≤ get_buffer_size (run_popped jb0 calls).1
     + length (released (run_popped jb0 calls).2) + 1)%nat.
Proof.
  destruct calls as [|[d s] calls]; simpl; [lia|].
  destruct (add_frame_popped jb0 d s) as [jb1 r] eqn:E.
  apply add_frame_popped_maxlen in E.
  pose proof (run_popped_size_unbounded jb1 calls E) as Hsz.
  destruct (run_popped jb1 calls) as [jb2 rs]. simpl in *.
  rewrite released_cons, length_app. lia.
Qed.

(* ===================================================================== *)
(** * JitterBuffer: the stated properties                                  *)
(* ===================================================================== *)

(** C1.  For every sequence of [add_frame] calls on a fresh buffer: each
    call yields at most one frame (one optional result per call, and
    [add_frame] returns the payload of the released pair); a frame is
    released only when its sequence number equals [expected_seq] at that
    moment, and the release advances [expected_seq] by exactly 1, while a
    call that releases nothing leaves it unchanged; the released sequence
    numbers are 0, 1, 2, ... without gap or repetition; and the released
    frames together with the pending ones are among the frames that came in,
    each counted once, so no frame is released twice. *)
Theorem C1_release_in_order
    (max_size : Z) (jb0 : JitterBuffer) (calls : list (bytes * Z)) :
  JitterBuffer_init max_size = Some jb0 →
  ∀ jb outs, run_popped jb0 calls = (jb, outs) →
    run jb0 calls = (jb, (λ o : option (Z * bytes), snd <$> o) <$> outs)
    ∧ length outs = length calls
    ∧ (released outs).*1 = seqZ 0 (Z.of_nat (length (released outs)))
    ∧ NoDup (released outs).*1
    ∧ expected_seq jb = Z.of_nat (length (released outs))
    ∧ (∃ dropped, released outs ++ pending jb ++ dropped ≡ₚ frame_of <$> calls)
    ∧ ∀ d s,
        match add_frame_popped jb d s with
        | (jb', Some (q, x)) =>
            q = expected_seq jb
            ∧ expected_seq jb' = expected_seq jb + 1
            ∧ (q, x) ∈ pending jb ++ [(s, d)]
            ∧ add_frame jb d s = (jb', Some x)
        | (jb', None) =>
            expected_seq jb' = expected_seq jb
            ∧ add_frame jb d s = (jb', None)
        end.
Proof.
  intros Hinit jb outs Hrun.
  assert (H0 : expected_seq jb0 = 0 ∧ pending jb0 = []).
  { unfold JitterBuffer_init, Deque.new_bounded in Hinit.
    destruct (max_size <? 0); [done|]. by injection Hinit as <-. }
  destruct H0 as [He0 Hp0].
  pose proof (run_unfold jb0 calls) as Hu.
  pose proof (run_popped_length jb0 calls) as Hlen.
  pose proof (run_popped_seqs jb0 calls) as [Hseq Hexp].
  pose proof (run_popped_perm jb0 calls) as [dropped Hperm].
  rewrite Hrun in Hu, Hlen, Hseq, Hexp, Hperm. simpl in Hu, Hlen, Hseq, Hexp, Hperm.
  rewrite He0 in Hseq, Hexp. rewrite Hp0 in Hperm. simpl in Hperm.
  split_and!; try done.
  - rewrite Hseq. apply NoDup_seqZ.
  - by exists dropped.
  - intros d s. rewrite add_frame_unfold.
    destruct (add_frame_popped jb d s) as [jb' [[q x]|]] eqn:E.
    + destruct (add_frame_popped_perm _ _ _ _ _ E) as [dr Hdr].
      destruct (add_frame_popped_cases jb d s) as [(y & rest & _ & E')|[_ E']];
        rewrite E' in E; [|done].
      injection E as <- <- <-. simpl. split_and!; try done.
      rewrite <- Hdr. simpl. apply elem_of_cons. by left.
    + destruct (add_frame_popped_cases jb d s) as [(y & rest & _ & E')|[_ E']];
        rewrite E' in E; [done|].
      by injection E as <-.
Qed.

Lemma C1_release_in_order_witness :
  JitterBuffer_init 10 = Some JitterBuffer_default
  ∧ (released (run_popped JitterBuffer_default
                 [([Byte.x02], 2); ([Byte.x00], 0); ([Byte.x01], 1)]).2).*1
    = [0; 1].
Proof.
  split; [reflexivity|].
  destruct (C1_release_in_order 10 JitterBuffer_default
              [([Byte.x02], 2); ([Byte.x00], 0); ([Byte.x01], 1)]
              eq_refl _ _ eq_refl) as (_ & _ & H & _).
  exact H.
Defined.

(** C2.  The capacity given to the constructor is not kept: [add_frame]
    rebuilds the buffer as [deque(sorted(...))] without [maxlen], so with
    capacity 2 and frames 5, 6, 7 nothing is evicted and
    [get_buffer_size] is 3. *)
Theorem C2_capacity_lost_after_resort (a b c : bytes) :
  ∃ jb0, JitterBuffer_init 2 = Some jb0
    ∧ pending (run jb0 [(a, 5); (b, 6); (c, 7)]).1 = [(5, a); (6, b); (7, c)]
    ∧ get_buffer_size (run jb0 [(a, 5); (b, 6); (c, 7)]).1 = 3%nat
    ∧ Deque.maxlen (buffer (run jb0 [(a, 5); (b, 6); (c, 7)]).1) = None.
Proof. eexists. split; [reflexivity|]. by repeat split. Qed.

(** C3.  Capacity 2, [expected_seq = 0], frames 5, 6, 7 in that order: the
    three calls return [None] and [expected_seq] stays 0 after each of
    them, but the third call evicts nothing: the frame for sequence number 5
    is still pending next to 6 and 7. *)
Theorem C3_no_eviction_5_6_7 (a b c : bytes) :
  ∃ jb0, JitterBuffer_init 2 = Some jb0
    ∧ expected_seq jb0 = 0
    ∧ (run jb0 [(a, 5); (b, 6); (c, 7)]).2 = [None; None; None]
    ∧ expected_seq (run jb0 [(a, 5)]).1 = 0
    ∧ expected_seq (run jb0 [(a, 5); (b, 6)]).1 = 0
    ∧ expected_seq (run jb0 [(a, 5); (b, 6); (c, 7)]).1 = 0
    ∧ pending (run jb0 [(a, 5); (b, 6)]).1 = [(5, a); (6, b)]
    ∧ pending (run jb0 [(a, 5); (b, 6); (c, 7)]).1 = [(5, a); (6, b); (7, c)].
Proof. eexists. split; [reflexivity|]. by repeat split. Qed.

(** C6.  A fresh buffer of default capacity receiving the sequence numbers
    2, 0, 1 in that order returns [None], then the payload of frame 0, then
    the payload of frame 1; afterwards [expected_seq] is 2 and frame 2 is
    still pending. *)
Theorem C6_reorder_2_0_1 (d2 d0 d1 : bytes) :
  JitterBuffer_init default_max_size = Some JitterBuffer_default
  ∧ expected_seq JitterBuffer_default = 0
  ∧ (run JitterBuffer_default [(d2, 2); (d0, 0); (d1, 1)]).2
    = [None; Some d0; Some d1]
  ∧ expected_seq (run JitterBuffer_default [(d2, 2); (d0, 0); (d1, 1)]).1 = 2
  ∧ pending (run JitterBuffer_default [(d2, 2); (d0, 0); (d1, 1)]).1 = [(2, d2)].
Proof. by repeat split. Qed.

(** C4, as stated, fails.  After frame 0 has been released
    ([expected_seq = 1]), a second frame numbered 0 is late; the call
    returns [None], but the frame is stored (depth 0 becomes 1), and the
    next frame numbered 1, which would have been released, is held back. *)
Lemma C4_late_frame_counterexample :
  let jb := (run JitterBuffer_default [([Byte.x0a], 0)]).1 in
  reachable jb
  ∧ 0 < expected_seq jb
  ∧ (add_frame jb [Byte.x0b] 0).2 = None
  ∧ pending jb = []
  ∧ pending (add_frame jb [Byte.x0b] 0).1 = [(0, [Byte.x0b])]
  ∧ get_buffer_size (add_frame jb [Byte.x0b] 0).1 ≠ get_buffer_size jb
  ∧ (add_frame jb [Byte.x0c] 1).2 = Some [Byte.x0c]
  ∧ (add_frame (add_frame jb [Byte.x0b] 0).1 [Byte.x0c] 1).2 = None.
Proof.
  split_and!; try done.
  by exists 10, JitterBuffer_default, [([Byte.x0a], 0)].
Qed.

(** Below its capacity, or once the buffer has been re-sorted, [append]
    keeps every item. *)
Lemma append_below_capacity {A : Type} (d : Deque.deque A) (x : A) :
  (Deque.maxlen d = None
   ∨ ∃ n, Deque.maxlen d = Some n ∧ (length (Deque.items d) < n)%nat) →
  Deque.items (Deque.append d x) = Deque.items d ++ [x].
Proof.
  unfold Deque.append. intros [->|(n & -> & Hn)]; [done|].
  rewrite length_app. simpl.
  destruct (n <? length (Deque.items d) + 1)%nat eqn:E; [|done].
  apply Nat.ltb_lt in E. lia.
Qed.

Lemma reachable_from_reachable (max_size : Z) (jb : JitterBuffer) :
  reachable_from max_size jb → reachable jb.
Proof. intros (jb0 & calls & ? & ?). by exists max_size, jb0, calls. Qed.

(** Before the first call the buffer still has the capacity it was
    constructed with. *)
Lemma reachable_from_shape (max_size : Z) (jb : JitterBuffer) :
  reachable_from max_size jb →
  Deque.maxlen (buffer jb) = None
  ∨ (pending jb = [] ∧ Deque.maxlen (buffer jb) = Some (Z.to_nat max_size)).
Proof.
  intros Hr.
  destruct (reachable_shape jb (reachable_from_reachable _ _ Hr)) as [?|[_ Hp]];
    [by left|].
  destruct Hr as (jb0 & calls & Hinit & <-).
  destruct calls as [|[d s] calls].
  - right. unfold JitterBuffer_init, Deque.new_bounded in Hinit.
    destruct (max_size <? 0); [done|]. by injection Hinit as <-.
  - left. rewrite run_unfold. simpl.
    destruct (add_frame_popped jb0 d s) as [jb1 r] eqn:E.
    apply add_frame_popped_maxlen in E. clear Hp Hinit jb0.
    revert jb1 r E. induction calls as [|[d' s'] calls IH]; intros jb1 r E; simpl.
    + done.
    + destruct (add_frame_popped jb1 d' s') as [jb2 r'] eqn:E'.
      apply add_frame_popped_maxlen in E'. specialize (IH jb2 r' E').
      by destruct (run_popped jb2 calls).
Qed.

(** Below its capacity a buffer keeps every frame that comes in. *)
Lemma append_reachable_below_capacity
    (max_size : Z) (jb : JitterBuffer) (d : bytes) (s : Z) :
  reachable_from max_size jb →
  Z.of_nat (get_buffer_size jb) < max_size →
  Deque.items (Deque.append (buffer jb) (s, d)) = pending jb ++ [(s, d)].
Proof.
  intros Hr Hcap. apply append_below_capacity.
  destruct (reachable_from_shape _ _ Hr) as [?|[_ Hm]]; [by left|right].
  exists (Z.to_nat max_size). split; [done|]. unfold get_buffer_size in Hcap. lia.
Qed.

(** C4, amended.  In every state reached from a fresh buffer whose depth
    is below the capacity it was constructed with, [add_frame] with a
    sequence number below [expected_seq] returns [None] and leaves
    [expected_seq] unchanged, but the frame is not ignored: it is added to
    the pending frames and the depth grows by one.  And while a frame
    below [expected_seq] is pending, an [add_frame] call in such a state
    returns [None], leaves [expected_seq] unchanged and keeps that frame
    pending. *)
Theorem C4_late_frame_is_stored
    (max_size : Z) (jb : JitterBuffer) (d : bytes) (s : Z) :
  reachable_from max_size jb →
  Z.of_nat (get_buffer_size jb) < max_size →
  (s < expected_seq jb →
     ∃ jb', add_frame jb d s = (jb', None)
       ∧ expected_seq jb' = expected_seq jb
       ∧ pending jb' ≡ₚ (s, d) :: pending jb
       ∧ get_buffer_size jb' = S (get_buffer_size jb))
  ∧ (∀ late, late ∈ pending jb → late.1 < expected_seq jb →
       ∃ jb', add_frame jb d s = (jb', None)
         ∧ expected_seq jb' = expected_seq jb
         ∧ late ∈ pending jb').
Proof.
  intros Hr Hcap.
  pose proof (append_reachable_below_capacity _ _ d s Hr Hcap) as Happ.
  assert (Hblocked : ∀ p, p ∈ pending jb ++ [(s, d)] → p.1 < expected_seq jb →
            add_frame jb d s
            = ({| buffer := Deque.mk (py_sorted fst (pending jb ++ [(s, d)])) None;
                  sequence_number := sequence_number jb;
                  expected_seq := expected_seq jb |}, None)).
  { intros p Hin Hlt. rewrite add_frame_unfold.
    destruct (add_frame_popped_cases jb d s) as [(x & rest & Hl & _)|[_ E]].
    - exfalso. rewrite Happ in Hl.
      pose proof (py_sorted_head_min fst _ _ _ Hl p Hin) as Hmin.
      simpl in Hmin. lia.
    - rewrite E, Happ. done. }
  split.
  - intros Hlt.
    rewrite (Hblocked (s, d));
      [|by apply elem_of_app; right; apply list_elem_of_singleton|done].
    eexists. split; [reflexivity|]. unfold get_buffer_size, pending. simpl.
    rewrite py_sorted_length, length_app. simpl.
    split_and!; [done| |lia].
    by rewrite py_sorted_perm, Permutation_app_comm.
  - intros late Hin Hlt.
    rewrite (Hblocked late); [|by apply elem_of_app; left|done].
    eexists. split; [reflexivity|]. unfold pending. simpl. split; [done|].
    rewrite py_sorted_perm. apply elem_of_app. by left.
Qed.

Lemma C4_late_frame_is_stored_witness :
  let jb := (run JitterBuffer_default [([Byte.x0a], 0)]).1 in
  reachable_from 10 jb
  ∧ Z.of_nat (get_buffer_size jb) < 10
  ∧ 0 < expected_seq jb
  ∧ ∃ jb', add_frame jb [Byte.x0b] 0 = (jb', None)
      ∧ get_buffer_size jb' = S (get_buffer_size jb).
Proof.
  intros jb.
  assert (Hr : reachable_from 10 jb)
    by (by exists JitterBuffer_default, [([Byte.x0a], 0)]).
  assert (Hcap : Z.of_nat (get_buffer_size jb) < 10) by reflexivity.
  assert (Hlt : 0 < expected_seq jb) by reflexivity.
  split; [exact Hr|]. split; [exact Hcap|]. split; [exact Hlt|].
  destruct (proj1 (C4_late_frame_is_stored 10 jb [Byte.x0b] 0 Hr Hcap) Hlt)
    as (jb' & Hadd & _ & _ & Hsize).
  exists jb'. split; [exact Hadd|exact Hsize].
Defined.

(** C5, as stated, fails.  With frame 5 pending in a fresh default buffer,
    a second [add_frame] for sequence number 5 leaves two pending entries
    for 5, the older payload first, and the depth goes from 1 to 2. *)
Lemma C5_same_seq_counterexample :
  let jb := (run JitterBuffer_default [([Byte.x0a], 5)]).1 in
  reachable jb
  ∧ (5, [Byte.x0a]) ∈ pending jb
  ∧ expected_seq jb ≤ 5
  ∧ entries_for 5 (add_frame jb [Byte.x0b] 5).1
    = [(5, [Byte.x0a]); (5, [Byte.x0b])]
  ∧ get_buffer_size jb = 1%nat
  ∧ get_buffer_size (add_frame jb [Byte.x0b] 5).1 = 2%nat.
Proof.
  split_and!; try done.
  - by exists 10, JitterBuffer_default, [([Byte.x0a], 5)].
  - apply list_elem_of_singleton. reflexivity.
Qed.

(** C5, amended.  In every state reached from a fresh buffer whose depth
    is below the capacity it was constructed with and that holds a pending
    frame for a sequence number [s] not below [expected_seq], [add_frame]
    with the same [s] and a new payload overwrites nothing: every pending
    frame is kept and the new one is added.  The entries for [s] are the
    earlier ones in their order followed by the new payload, less the
    oldest of them when this call releases it, which it does only when [s]
    is [expected_seq]; the depth grows by one unless the call releases a
    frame, in which case it is unchanged. *)
Theorem C5_same_seq_is_appended
    (max_size : Z) (jb : JitterBuffer) (d d0 : bytes) (s : Z) :
  reachable_from max_size jb →
  Z.of_nat (get_buffer_size jb) < max_size →
  expected_seq jb ≤ s →
  (s, d0) ∈ pending jb →
  ∀ jb' r, add_frame_popped jb d s = (jb', r) →
    add_frame jb d s = (jb', snd <$> r)
    ∧ opt_list r ++ pending jb' ≡ₚ pending jb ++ [(s, d)]
    ∧ filter (λ p, p.1 = s) (opt_list r) ++ entries_for s jb'
      = entries_for s jb ++ [(s, d)]
    ∧ last (entries_for s jb') = Some (s, d)
    ∧ (get_buffer_size jb' + length (opt_list r) = S (get_buffer_size jb))%nat
    ∧ (r = None → (2 ≤ length (entries_for s jb'))%nat)
    ∧ (∀ q x, r = Some (q, x) → q = expected_seq jb ∧ q ≤ s).
Proof.
  intros Hfrom Hcap Hs Hin jb' r E.
  pose proof (reachable_from_reachable _ _ Hfrom) as Hr.
  assert (Hm : Deque.maxlen (buffer jb) = None).
  { destruct (reachable_shape jb Hr) as [Hm|[_ Hp]]; [done|].
    rewrite Hp in Hin. by apply elem_of_nil in Hin. }
  assert (Hold : entries_for s jb ≠ []).
  { intros Hnil. assert (Hf : (s, d0) ∈ entries_for s jb)
      by (by apply list_elem_of_filter).
    rewrite Hnil in Hf. by apply elem_of_nil in Hf. }
  assert (Hent : filter (λ p, p.1 = s) (opt_list r) ++ entries_for s jb'
                 = entries_for s jb ++ [(s, d)]).
  { pose proof (py_sorted_filter fst s
                  (Deque.items (Deque.append (buffer jb) (s, d)))) as Hf.
    rewrite append_unbounded, filter_app in Hf by done.
    rewrite filter_cons_True, filter_nil in Hf by done.
    unfold entries_for, pending. rewrite <- Hf.
    pose proof (add_frame_popped_cases jb d s) as Hc. simpl in Hc.
    rewrite (append_unbounded _ _ Hm) in Hc.
    destruct Hc as [(x & rest & Hl & E')|[_ E']];
      rewrite E' in E; injection E as <- <-.
    - rewrite Hl. by rewrite <- filter_app.
    - done. }
  split_and!.
  - rewrite add_frame_unfold, E. done.
  - destruct (add_frame_popped_perm _ _ _ _ _ E) as [dr Hdr].
    pose proof (add_frame_popped_size _ _ _ _ _ Hm E) as Hsz.
    apply Permutation_length in Hdr as Hlen.
    rewrite !length_app in Hlen. unfold get_buffer_size, pending in *.
    simpl in Hlen. destruct dr; [|simpl in Hlen; lia].
    by rewrite !app_nil_r in Hdr.
  - exact Hent.
  - destruct (entries_for s jb) as [|e es] eqn:Ees; [done|].
    destruct r as [[q x]|]; cbn [opt_list] in Hent.
    + destruct (decide (q = s)) as [Hq|Hq].
      * rewrite filter_cons_True, filter_nil in Hent by done.
        injection Hent as _ ->. apply last_snoc.
      * rewrite filter_cons_False, filter_nil in Hent by done.
        simpl in Hent. rewrite Hent.
        change (e :: es ++ [(s, d)]) with ((e :: es) ++ [(s, d)]).
        apply last_snoc.
    + rewrite filter_nil in Hent. simpl in Hent. rewrite Hent.
      change (e :: es ++ [(s, d)]) with ((e :: es) ++ [(s, d)]).
      apply last_snoc.
  - exact (add_frame_popped_size _ _ _ _ _ Hm E).
  - intros ->. cbn [opt_list] in Hent. rewrite filter_nil in Hent.
    simpl in Hent. rewrite Hent, length_app. simpl.
    destruct (entries_for s jb); [done|]. simpl. lia.
  - intros q x ->.
    destruct (add_frame_popped_cases jb d s) as [(y & rest & _ & E')|[_ E']];
      rewrite E' in E; [|done].
    injection E as _ <- _. split; [done|lia].
Qed.

Lemma C5_same_seq_is_appended_witness :
  let jb := (run JitterBuffer_default [([Byte.x0a], 5)]).1 in
  reachable_from 10 jb
  ∧ Z.of_nat (get_buffer_size jb) < 10
  ∧ expected_seq jb ≤ 5
  ∧ (5, [Byte.x0a]) ∈ pending jb
  ∧ last (entries_for 5 (add_frame_popped jb [Byte.x0b] 5).1)
    = Some (5, [Byte.x0b]).
Proof.
  intros jb.
  assert (Hr : reachable_from 10 jb)
    by (by exists JitterBuffer_default, [([Byte.x0a], 5)]).
  assert (Hcap : Z.of_nat (get_buffer_size jb) < 10) by reflexivity.
  assert (Hs : expected_seq jb ≤ 5) by discriminate.
  assert (Hin : (5, [Byte.x0a]) ∈ pending jb)
    by (apply list_elem_of_singleton; reflexivity).
  split; [exact Hr|]. split; [exact Hcap|]. split; [exact Hs|].
  split; [exact Hin|].
  exact (proj1 (proj2 (proj2 (proj2
    (C5_same_seq_is_appended 10 jb [Byte.x0b] [Byte.x0a] 5 Hr Hcap Hs Hin
       _ _ eq_refl))))).
Defined.

(* ===================================================================== *)
(** * ConnectionManager                                                    *)
(* ===================================================================== *)

(** The three ways [create_session] ends. *)
Lemma create_session_cases
    (mgr : ConnectionManager) (ws : nat) (sid cid : option string) (env : Env) :
  let id := default (fresh_session_id env) sid in
  let c := default (fresh_connection_id env) cid in
  let session :=
    UserSession_new id c ws JitterBuffer_default
      {| queue_items := []; maxsize := 1000 |} (now env) in
  (max_connections mgr ≤ Z.of_nat (get_active_session_count mgr)
   ∧ create_session mgr ws sid cid env
     = (mgr, inl (MaxConnectionsExceeded (max_connections mgr))))
  ∨ (Z.of_nat (get_active_session_count mgr) < max_connections mgr
     ∧ is_Some (active_sessions mgr !! id)
     ∧ create_session mgr ws sid cid env = (mgr, inl (SessionIdExists id)))
  ∨ (Z.of_nat (get_active_session_count mgr) < max_connections mgr
     ∧ active_sessions mgr !! id = None
     ∧ create_session mgr ws sid cid env
       = ({| max_connections := max_connections mgr;
             active_sessions := <[id := session]> (active_sessions mgr);
             connection_to_session := <[c := id]> (connection_to_session mgr);
             websocket_to_connection := <[ws := c]> (websocket_to_connection mgr) |},
          inr session)).
Proof.
  intros id c session. unfold create_session, get_active_session_count.
  destruct (Z.of_nat (size (active_sessions mgr)) >=? max_connections mgr) eqn:E.
  - left. split; [lia|done].
  - right. fold id. destruct (active_sessions mgr !! id) as [s|] eqn:El.
    + left. split; [lia|]. split; [by exists s|done].
    + right. split; [lia|]. split; done.
Qed.

Lemma create_session_max (mgr : ConnectionManager) (ws : nat)
    (sid cid : option string) (env : Env) :
  max_connections (create_session mgr ws sid cid env).1 = max_connections mgr.
Proof.
  destruct (create_session_cases mgr ws sid cid env)
    as [[_ ->]|[(_ & _ & ->)|(_ & _ & ->)]]; done.
Qed.

(** A session that was created is registered under its own identifier. *)
Lemma create_session_registered (mgr mgr' : ConnectionManager) (ws : nat)
    (sid cid : option string) (env : Env) (session : UserSession) :
  create_session mgr ws sid cid env = (mgr', inr session) →
  active_sessions mgr' !! session_id session = Some session
  ∧ get_active_session_count mgr' = S (get_active_session_count mgr)
  ∧ Z.of_nat (get_active_session_count mgr') ≤ max_connections mgr'.
Proof.
  destruct (create_session_cases mgr ws sid cid env)
    as [[_ ->]|[(_ & _ & ->)|(Hlt & Hfree & ->)]]; [done..|].
  intros [= <- <-]. unfold get_active_session_count in *. simpl.
  rewrite lookup_insert_eq, map_size_insert_None by done. split_and!; [done..|lia].
Qed.

Lemma create_session_bound (mgr : ConnectionManager) (ws : nat)
    (sid cid : option string) (env : Env) :
  Z.of_nat (get_active_session_count mgr) ≤ max_connections mgr →
  Z.of_nat (get_active_session_count (create_session mgr ws sid cid env).1)
  ≤ max_connections (create_session mgr ws sid cid env).1.
Proof.
  intros Hle. destruct (create_session mgr ws sid cid env) as [mgr' [e|s]] eqn:E.
  - destruct (create_session_cases mgr ws sid cid env)
      as [[_ E']|[(_ & _ & E')|(_ & _ & E')]]; rewrite E' in E;
      by injection E as <-.
  - by apply create_session_registered in E as (_ & _ & ?).
Qed.

Lemma remove_session_bound (mgr : ConnectionManager) (ws : nat) :
  Z.of_nat (get_active_session_count mgr) ≤ max_connections mgr →
  Z.of_nat (get_active_session_count (remove_session mgr ws).1)
  ≤ max_connections (remove_session mgr ws).1.
Proof.
  intros Hle. unfold remove_session.
  destruct (websocket_to_connection mgr !! ws) as [c|]; [|done].
  destruct (String.eqb c EmptyString); [done|].
  destruct (connection_to_session mgr !! c) as [id|]; [|done].
  destruct (String.eqb id EmptyString); [done|].
  unfold get_active_session_count in *. simpl. rewrite map_size_delete.
  destruct (active_sessions mgr !! id); simpl; lia.
Qed.

Lemma handle_init_bound (mgr mgr' : ConnectionManager) (ws : nat)
    (init_data : gmap string json) (env : Env) (o : InitOutcome) :
  handle_init mgr ws init_data env = Some (mgr', o) →
  Z.of_nat (get_active_session_count mgr) ≤ max_connections mgr →
  Z.of_nat (get_active_session_count mgr') ≤ max_connections mgr'.
Proof.
  unfold handle_init. intros H Hle.
  destruct (init_data !! "type") as [[| | |ty| |]|]; try by injection H as <- <-.
  destruct (String.eqb ty "init"); [|by injection H as <- <-].
  destruct (session_id_arg _) as [sid|]; [|done].
  destruct (create_session mgr ws sid None env) as [mgr1 [e|s]] eqn:E.
  - injection H as <- <-.
    pose proof (create_session_bound mgr ws sid None env Hle) as Hb.
    by rewrite E in Hb.
  - injection H as <- <-.
    apply create_session_registered in E as (Hreg & _ & Hb).
    unfold get_active_session_count, store_session in *. simpl.
    rewrite map_size_insert_Some; [done|by eexists].
Qed.

Lemma remove_session_max (mgr : ConnectionManager) (ws : nat) :
  max_connections (remove_session mgr ws).1 = max_connections mgr.
Proof.
  unfold remove_session.
  destruct (websocket_to_connection mgr !! ws) as [c|]; [|done].
  destruct (String.eqb c EmptyString); [done|].
  destruct (connection_to_session mgr !! c) as [id|]; [|done].
  by destruct (String.eqb id EmptyString).
Qed.

Lemma apply_op_max (mgr : ConnectionManager) (op : RegistryOp) :
  max_connections (apply_op mgr op) = max_connections mgr.
Proof.
  destruct op as [ws sid cid env|ws|ws init_data env]; simpl.
  - apply create_session_max.
  - apply remove_session_max.
  - unfold handle_init.
    destruct (init_data !! "type") as [[| | |ty| |]|]; try done.
    destruct (String.eqb ty "init"); [|done].
    destruct (session_id_arg _) as [sid|]; [|done].
    pose proof (create_session_max mgr ws sid None env) as Hm.
    by destruct (create_session mgr ws sid None env) as [mgr1 [e|s]].
Qed.

Lemma apply_op_bound (mgr : ConnectionManager) (op : RegistryOp) :
  Z.of_nat (get_active_session_count mgr) ≤ max_connections mgr →
  Z.of_nat (get_active_session_count (apply_op mgr op))
  ≤ max_connections (apply_op mgr op).
Proof.
  intros Hle. destruct op as [ws sid cid env|ws|ws init_data env]; simpl.
  - by apply create_session_bound.
  - by apply remove_session_bound.
  - destruct (handle_init mgr ws init_data env) as [[mgr' o]|] eqn:E; [|done].
    by eapply handle_init_bound.
Qed.

Lemma apply_ops_max (ops : list RegistryOp) (mgr : ConnectionManager) :
  max_connections (apply_ops mgr ops) = max_connections mgr.
Proof.
  unfold apply_ops. revert mgr.
  induction ops as [|op ops IH]; intros mgr; simpl; [done|].
  by rewrite IH, apply_op_max.
Qed.

Lemma apply_ops_bound (ops : list RegistryOp) (mgr : ConnectionManager) :
  Z.of_nat (get_active_session_count mgr) ≤ max_connections mgr →
  Z.of_nat (get_active_session_count (apply_ops mgr ops)) ≤ max_connections mgr.
Proof.
  revert mgr. induction ops as [|op ops IH]; intros mgr Hle; [done|].
  change (apply_ops mgr (op :: ops)) with (apply_ops (apply_op mgr op) ops).
  rewrite <- (apply_op_max mgr op). by apply IH, apply_op_bound.
Qed.

(** C7.  The number of active sessions never exceeds [max_connections]:
    [create_session] called with at least [max_connections] active sessions
    raises and returns the manager as it was (same count, same three maps);
    a successful [create_session] increases the count by exactly 1 and
    stays within the ceiling; and the bound, once it holds (as it does for
    a new manager with a non-negative ceiling), is kept by every sequence
    of session creations, removals and handshakes. *)
Theorem C7_connection_ceiling
    (mgr : ConnectionManager) (ws : nat) (sid cid : option string) (env : Env) :
  (max_connections mgr ≤ Z.of_nat (get_active_session_count mgr) →
     create_session mgr ws sid cid env
     = (mgr, inl (MaxConnectionsExceeded (max_connections mgr))))
  ∧ (∀ mgr' session,
       create_session mgr ws sid cid env = (mgr', inr session) →
       get_active_session_count mgr' = S (get_active_session_count mgr)
       ∧ Z.of_nat (get_active_session_count mgr') ≤ max_connections mgr')
  ∧ (Z.of_nat (get_active_session_count mgr) ≤ max_connections mgr →
     ∀ ops, Z.of_nat (get_active_session_count (apply_ops mgr ops))
            ≤ max_connections mgr)
  ∧ (∀ ceiling ops, 0 ≤ ceiling →
       Z.of_nat (get_active_session_count
                   (apply_ops (ConnectionManager_init ceiling) ops)) ≤ ceiling).
Proof.
  split_and!.
  - intros Hfull.
    destruct (create_session_cases mgr ws sid cid env)
      as [[_ E]|[(Hlt & _)|(Hlt & _)]]; [done|lia..].
  - intros mgr' session E.
    by apply create_session_registered in E as (_ & ? & ?).
  - intros Hle ops. by apply apply_ops_bound.
  - intros ceiling ops Hc.
    apply (apply_ops_bound ops (ConnectionManager_init ceiling)).
    unfold get_active_session_count. simpl. rewrite map_size_empty. lia.
Qed.

Lemma C7_connection_ceiling_witness :
  max_connections (example_manager 1)
    ≤ Z.of_nat (get_active_session_count (example_manager 1))
  ∧ create_session (example_manager 1) 2%nat (Some "bob") None example_env
    = (example_manager 1, inl (MaxConnectionsExceeded 1))
  ∧ get_active_session_count (example_manager 2) = 1%nat
  ∧ get_active_session_count
      (create_session (example_manager 2) 2%nat (Some "bob") None example_env).1
    = 2%nat.
Proof.
  assert (H1 : max_connections (example_manager 1)
               ≤ Z.of_nat (get_active_session_count (example_manager 1)))
    by (vm_compute; discriminate).
  split; [exact H1|]. split.
  - exact (proj1 (C7_connection_ceiling (example_manager 1) 2%nat (Some "bob")
                    None example_env) H1).
  - split; [vm_compute; reflexivity|].
    exact (proj1 (proj1 (proj2 (C7_connection_ceiling (example_manager 2) 2%nat
                    (Some "bob") None example_env)) _ _ eq_refl)).
Defined.

(** C8.  Below the ceiling, [create_session] with a [session_id] that is
    already active raises and returns the manager as it was: none of the
    three maps is changed and the count of active sessions is the same. *)
Theorem C8_duplicate_session_rejected
    (mgr : ConnectionManager) (ws : nat) (sid : string) (cid : option string)
    (env : Env) :
  Z.of_nat (get_active_session_count mgr) < max_connections mgr →
  is_Some (active_sessions mgr !! sid) →
  ∃ mgr', create_session mgr ws (Some sid) cid env = (mgr', inl (SessionIdExists sid))
    ∧ active_sessions mgr' = active_sessions mgr
    ∧ connection_to_session mgr' = connection_to_session mgr
    ∧ websocket_to_connection mgr' = websocket_to_connection mgr
    ∧ get_active_session_count mgr' = get_active_session_count mgr
    ∧ mgr' = mgr.
Proof.
  intros Hlt [s Hs].
  destruct (create_session_cases mgr ws (Some sid) cid env)
    as [[Hfull _]|[(_ & _ & E)|(_ & Hfree & _)]]; simpl in *.
  - lia.
  - exists mgr. by split_and!.
  - congruence.
Qed.

Lemma C8_duplicate_session_rejected_witness :
  Z.of_nat (get_active_session_count (example_manager 2))
    < max_connections (example_manager 2)
  ∧ is_Some (active_sessions (example_manager 2) !! "alice")
  ∧ ∃ mgr', create_session (example_manager 2) 2%nat (Some "alice") None example_env
            = (mgr', inl (SessionIdExists "alice"))
          ∧ mgr' = example_manager 2.
Proof.
  assert (H1 : Z.of_nat (get_active_session_count (example_manager 2))
               < max_connections (example_manager 2)) by (vm_compute; reflexivity).
  assert (H2 : is_Some (active_sessions (example_manager 2) !! "alice"))
    by (vm_compute; eexists; reflexivity).
  split; [exact H1|]. split; [exact H2|].
  destruct (C8_duplicate_session_rejected (example_manager 2) 2%nat "alice" None
              example_env H1 H2) as (mgr' & E & _ & _ & _ & _ & Heq).
  exists mgr'. split; [exact E|exact Heq].
Defined.

(* ===================================================================== *)
(** * The init handshake                                                   *)
(* ===================================================================== *)

(** C10.  For every accepted init message without a [display_subtitles]
    field, the created session, which is also the one held by the registry,
    has [display_subtitles] set to [True]; a [UserSession] constructed
    directly has [display_subtitles = False]. *)
Theorem C10_display_subtitles_default
    (mgr mgr' : ConnectionManager) (ws : nat) (init_data : gmap string json)
    (env : Env) (session : UserSession) :
  handle_init mgr ws init_data env = Some (mgr', InitAccepted session) →
  init_data !! "display_subtitles" = None →
  display_subtitles session = JBool true
  ∧ active_sessions mgr' !! session_id session = Some session
  ∧ ∀ sid cid ws' jb q t,
      display_subtitles (UserSession_new sid cid ws' jb q t) = JBool false.
Proof.
  unfold handle_init. intros H Hnone.
  destruct (init_data !! "type") as [[| | |ty| |]|]; try done.
  destruct (String.eqb ty "init"); [|done].
  destruct (session_id_arg _) as [sid|]; [|done].
  destruct (create_session mgr ws sid None env) as [mgr1 [e|s]]; [done|].
  injection H as <- <-. rewrite Hnone. simpl.
  split_and!; [done| |done]. apply lookup_insert_eq.
Qed.

Lemma C10_display_subtitles_default_witness :
  let init_data : gmap string json := {[ "type" := JStr "init" ]} in
  init_data !! "display_subtitles" = None
  ∧ ∃ mgr' session,
      handle_init (ConnectionManager_init 50) 1%nat init_data example_env
      = Some (mgr', InitAccepted session)
      ∧ display_subtitles session = JBool true.
Proof.
  intros init_data.
  assert (Hnone : init_data !! "display_subtitles" = None) by reflexivity.
  split; [exact Hnone|].
  eexists _, _. split; [vm_compute; reflexivity|].
  refine (proj1 (C10_display_subtitles_default (ConnectionManager_init 50) _ 1%nat
                   init_data example_env _ _ Hnone)).
  vm_compute. reflexivity.
Defined.

(* ===================================================================== *)
(** * The per-session audio loop                                           *)
(* ===================================================================== *)

(** One iteration: a batch is handed over only at 8192 bytes or more and
    is all that has accumulated; the accumulator is then empty if the call
    returns, and still holds the batch if it does not. *)
Lemma process_iteration_spec (acc : bytes) (p : Poll) (a : Awaited) :
  match process_iteration acc p a with
  | (acc', Some batch) =>
      8192 ≤ Z.of_nat (length batch) ∧ batch = acc ++ poll_bytes p
      ∧ acc' = match a with Completed => [] | Interrupted => batch end
  | (acc', None) =>
      acc' = acc ++ poll_bytes p
      ∧ (Z.of_nat (length acc) < 8192 → Z.of_nat (length acc') < 8192)
  end.
Proof.
  destruct p as [|t [|b data]]; simpl.
  - rewrite app_nil_r. done.
  - rewrite app_nil_r. done.
  - destruct (Z.of_nat (length (acc ++ b :: data)) >=? 8192) eqn:E.
    + destruct a; (split_and!; [lia|done..]).
    + split; [done|]. intros _. lia.
Qed.

Lemma process_from_spec (iterations : list (Poll * Awaited)) (acc : bytes) :
  Forall (λ it, it.2 = Completed) iterations →
  Z.of_nat (length acc) < 8192 →
  Forall (λ b : bytes, 8192 ≤ Z.of_nat (length b))
    (released (process_from acc iterations).2)
  ∧ concat (released (process_from acc iterations).2)
    ++ (process_from acc iterations).1
    = acc ++ concat (poll_bytes <$> iterations.*1)
  ∧ Z.of_nat (length (process_from acc iterations).1) < 8192.
Proof.
  revert acc. induction iterations as [|[p a] its IH]; intros acc Hall Hacc; simpl.
  - split_and!; [constructor| |done]. by rewrite app_nil_r.
  - apply Forall_cons in Hall as [Ha Hall]. simpl in Ha. subst a.
    pose proof (process_iteration_spec acc p Completed) as Hp.
    destruct (process_iteration acc p Completed) as [acc1 [batch|]].
    + destruct Hp as (Hlen & -> & ->).
      destruct (IH [] Hall ltac:(simpl; lia)) as (IH1 & IH2 & IH3).
      destruct (process_from [] its) as [acc2 outs]. simpl in *.
      rewrite released_cons. simpl. split_and!; [by constructor| |done].
      by rewrite <- !app_assoc, IH2.
    + destruct Hp as (-> & Hlt).
      destruct (IH _ Hall (Hlt Hacc)) as (IH1 & IH2 & IH3).
      destruct (process_from (acc ++ poll_bytes p) its) as [acc2 outs]. simpl in *.
      rewrite released_cons. simpl. split_and!; [done| |done].
      by rewrite IH2, <- app_assoc.
Qed.

(** C9.  The accumulator is not always empty after a batch has been handed
    over.  When the task is cancelled while it awaits
    [_transcribe_session_audio], the bare [except] of the loop swallows the
    [CancelledError] and [audio_buffer.clear()] is skipped: after a first
    item of 8192 bytes the accumulator still holds them, and with the next
    item the same 8192 bytes are handed over again. *)
Theorem C9_interrupted_batch_is_sent_again :
  let chunk := replicate (Z.to_nat 8192) Byte.x00 in
  process_session_audio [(QueueItem 0 chunk, Interrupted)]
  = (chunk, [Some chunk])
  ∧ process_session_audio
      [(QueueItem 0 chunk, Interrupted); (QueueItem 1 [Byte.x01], Completed)]
    = ([], [Some chunk; Some (chunk ++ [Byte.x01])]).
Proof. vm_compute. split; reflexivity. Qed.

(** As long as every awaited transcription call returns, a batch is handed
    over only when at least 8192 bytes have accumulated; the batches
    followed by what is still accumulated are exactly the bytes received,
    in arrival order, so each batch is all that was accumulated since the
    previous one; right after a batch the accumulator is empty; and after
    every iteration the accumulator holds fewer than 8192 bytes. *)
Theorem audio_batches_when_calls_return
    (iterations : list (Poll * Awaited)) (p : Poll) :
  Forall (λ it, it.2 = Completed) iterations →
  let '(acc, outs) := process_session_audio iterations in
  Forall (λ b : bytes, 8192 ≤ Z.of_nat (length b)) (released outs)
  ∧ concat (released outs) ++ acc = concat (poll_bytes <$> iterations.*1)
  ∧ Z.of_nat (length acc) < 8192
  ∧ match process_iteration acc p Completed with
    | (acc', Some batch) =>
        8192 ≤ Z.of_nat (length batch) ∧ batch = acc ++ poll_bytes p ∧ acc' = []
    | (acc', None) =>
        acc' = acc ++ poll_bytes p ∧ Z.of_nat (length acc') < 8192
    end.
Proof.
  intros Hall. unfold process_session_audio.
  destruct (process_from_spec iterations [] Hall ltac:(simpl; lia))
    as (H1 & H2 & H3).
  destruct (process_from [] iterations) as [acc outs]. simpl in *.
  split_and!; [done..|].
  pose proof (process_iteration_spec acc p Completed) as Hp.
  destruct (process_iteration acc p Completed) as [acc' [batch|]]; [done|].
  destruct Hp as [? Hlt]. split; [done|]. by apply Hlt.
Qed.

Lemma audio_batches_when_calls_return_witness :
  let chunk := replicate (Z.to_nat 4096) Byte.x00 in
  let iterations :=
    [(QueueItem 0 chunk, Completed); (QueueEmpty, Completed);
     (QueueItem 1 chunk, Completed)] in
  Forall (λ it : Poll * Awaited, it.2 = Completed) iterations
  ∧ process_session_audio iterations = ([], [None; None; Some (chunk ++ chunk)])
  ∧ Z.of_nat (length (process_session_audio iterations).1) < 8192.
Proof.
  intros chunk iterations.
  assert (Hall : Forall (λ it : Poll * Awaited, it.2 = Completed) iterations)
    by (repeat constructor).
  split; [exact Hall|]. split; [vm_compute; reflexivity|].
  pose proof (audio_batches_when_calls_return iterations QueueEmpty Hall) as H.
  destruct (process_session_audio iterations) as [acc outs].
  exact (proj1 (proj2 (proj2 H))).
Defined.

(* ===================================================================== *)
(** * ConnectionManager: lookups and removal                               *)
(* ===================================================================== *)

Lemma eqb_empty_false (s : string) : s ≠ EmptyString → String.eqb s EmptyString = false.
Proof. intros H. by apply String.eqb_neq. Qed.

(** What a successful [create_session] leaves in the three maps. *)
Lemma create_session_maps (mgr mgr' : ConnectionManager) (ws : nat)
    (sid cid : option string) (env : Env) (s : UserSession) :
  create_session mgr ws sid cid env = (mgr', inr s) →
  active_sessions mgr !! session_id s = None
  ∧ websocket s = ws
  ∧ session_id s = default (fresh_session_id env) sid
  ∧ connection_id s = default (fresh_connection_id env) cid
  ∧ jitter_buffer s = JitterBuffer_default
  ∧ audio_queue s = {| queue_items := []; maxsize := 1000 |}
  ∧ stats s = ConnectionStats_default
  ∧ mgr' = {| max_connections := max_connections mgr;
              active_sessions := <[session_id s := s]> (active_sessions mgr);
              connection_to_session :=
                <[connection_id s := session_id s]> (connection_to_session mgr);
              websocket_to_connection :=
                <[ws := connection_id s]> (websocket_to_connection mgr) |}.
Proof.
  destruct (create_session_cases mgr ws sid cid env)
    as [[_ ->]|[(_ & _ & ->)|(_ & Hfree & ->)]]; [done..|].
  intros [= <- <-]. by split_and!.
Qed.

(** Removing a session twice is the same as removing it once: the second
    call returns [False] and changes nothing; a call that returns [False]
    changes nothing either. *)
Theorem remove_session_idempotent (mgr : ConnectionManager) (ws : nat) :
  remove_session (remove_session mgr ws).1 ws = ((remove_session mgr ws).1, false)
  ∧ ((remove_session mgr ws).2 = false → (remove_session mgr ws).1 = mgr).
Proof.
  unfold remove_session at 2 3 4 5.
  destruct (websocket_to_connection mgr !! ws) as [c|] eqn:Ew; simpl.
  2: { split; [|done]. unfold remove_session. by rewrite Ew. }
  destruct (String.eqb c EmptyString) eqn:Ec; simpl.
  { split; [|done]. unfold remove_session. by rewrite Ew, Ec. }
  destruct (connection_to_session mgr !! c) as [id|] eqn:Es; simpl.
  2: { split; [|done]. unfold remove_session. by rewrite Ew, Ec, Es. }
  destruct (String.eqb id EmptyString) eqn:Ei; simpl.
  { split; [|done]. unfold remove_session. by rewrite Ew, Ec, Es, Ei. }
  split; [|done]. unfold remove_session. simpl. by rewrite lookup_delete_eq.
Qed.

(** A session that has just been created, with identifiers that are not
    empty, is found through its websocket and through its identifier. *)
Theorem create_then_lookup (mgr mgr' : ConnectionManager) (ws : nat)
    (sid cid : option string) (env : Env) (s : UserSession) :
  create_session mgr ws sid cid env = (mgr', inr s) →
  session_id s ≠ EmptyString → connection_id s ≠ EmptyString →
  get_session_by_websocket mgr' ws = Some s
  ∧ get_session_by_id mgr' (session_id s) = Some s.
Proof.
  intros E Hs Hc. apply create_session_maps in E as (_ & _ & _ & _ & _ & _ & _ & ->).
  unfold get_session_by_websocket, get_session_by_id. simpl.
  rewrite lookup_insert_eq, eqb_empty_false by done.
  rewrite lookup_insert_eq, eqb_empty_false by done.
  by rewrite lookup_insert_eq.
Qed.

Lemma create_then_lookup_witness :
  get_session_by_websocket (example_manager 2) 1%nat
  = get_session_by_id (example_manager 2) "alice"
  ∧ is_Some (get_session_by_id (example_manager 2) "alice").
Proof.
  destruct (create_session (ConnectionManager_init 2) 1%nat (Some "alice") None
              example_env) as [mgr' [e|s]] eqn:E; [discriminate E|].
  assert (Hm : example_manager 2 = mgr')
    by (unfold example_manager; rewrite E; reflexivity).
  assert (Hid : session_id s = "alice")
    by (injection E as _ <-; reflexivity).
  assert (Hcid : connection_id s = "c0ffee")
    by (injection E as _ <-; reflexivity).
  rewrite Hm.
  destruct (create_then_lookup _ _ _ _ _ _ _ E) as [H1 H2].
  - rewrite Hid. discriminate.
  - rewrite Hcid. discriminate.
  - rewrite Hid in H2. rewrite H1, H2. split; [reflexivity|]. eexists; reflexivity.
Defined.

(** Creating a session and removing it through its websocket brings the
    active sessions back to what they were; when the websocket and the
    connection identifier were not in use before, the whole manager is as
    before. *)
Theorem create_then_remove (mgr mgr' : ConnectionManager) (ws : nat)
    (sid cid : option string) (env : Env) (s : UserSession) :
  create_session mgr ws sid cid env = (mgr', inr s) →
  session_id s ≠ EmptyString → connection_id s ≠ EmptyString →
  ∃ mgr'', remove_session mgr' ws = (mgr'', true)
    ∧ active_sessions mgr'' = active_sessions mgr
    ∧ get_active_session_count mgr'' = get_active_session_count mgr
    ∧ get_session_by_websocket mgr'' ws = None
    ∧ (websocket_to_connection mgr !! ws = None →
       connection_to_session mgr !! connection_id s = None →
       mgr'' = mgr).
Proof.
  intros E Hs Hc.
  apply create_session_maps in E as (Hfree & _ & _ & _ & _ & _ & _ & ->).
  unfold remove_session. simpl.
  rewrite !lookup_insert_eq, !eqb_empty_false by done.
  eexists. split; [reflexivity|]. unfold get_active_session_count. simpl.
  rewrite delete_insert_id by done. split_and!; try done.
  - unfold get_session_by_websocket. simpl. by rewrite lookup_delete_eq.
  - intros Hw Hcs. rewrite !delete_insert_id by done. by destruct mgr.
Qed.

Lemma create_then_remove_witness :
  ∃ mgr'', remove_session (example_manager 2) 1%nat = (mgr'', true)
    ∧ mgr'' = ConnectionManager_init 2.
Proof.
  destruct (create_session (ConnectionManager_init 2) 1%nat (Some "alice") None
              example_env) as [mgr' [e|s]] eqn:E; [discriminate E|].
  assert (Hm : example_manager 2 = mgr')
    by (unfold example_manager; rewrite E; reflexivity).
  assert (Hid : session_id s = "alice")
    by (injection E as _ <-; reflexivity).
  assert (Hcid : connection_id s = "c0ffee")
    by (injection E as _ <-; reflexivity).
  rewrite Hm.
  destruct (create_then_remove _ _ _ _ _ _ _ E) as (mgr'' & Hr & _ & _ & _ & Heq).
  - rewrite Hid. discriminate.
  - rewrite Hcid. discriminate.
  - exists mgr''. split; [exact Hr|]. apply Heq; reflexivity.
Defined.

(** An init message whose [session_id] is the empty string is accepted,
    but the session it creates cannot be removed through its websocket:
    [remove_session] returns [False] and leaves the session registered, so
    it keeps its place among the active sessions. *)
Theorem empty_session_id_is_never_removed
    (mgr mgr' : ConnectionManager) (ws : nat) (init_data : gmap string json)
    (env : Env) (s : UserSession) :
  handle_init mgr ws init_data env = Some (mgr', InitAccepted s) →
  init_data !! "session_id" = Some (JStr EmptyString) →
  remove_session mgr' ws = (mgr', false)
  ∧ get_session_by_websocket mgr' ws = None
  ∧ get_session_by_id mgr' EmptyString = Some s
  ∧ get_active_session_count mgr' = S (get_active_session_count mgr).
Proof.
  unfold handle_init. intros H Hid.
  destruct (init_data !! "type") as [[| | |ty| |]|]; try done.
  destruct (String.eqb ty "init"); [|done].
  rewrite Hid in H. simpl in H.
  destruct (create_session mgr ws (Some EmptyString) None env)
    as [mgr1 [e|s1]] eqn:E; [done|].
  injection H as <- <-.
  pose proof (create_session_registered _ _ _ _ _ _ _ E) as (_ & Hcount & _).
  apply create_session_maps in E as (Hfree & _ & Hsid & _ & _ & _ & _ & ->).
  simpl in Hsid. rewrite Hsid in *.
  unfold remove_session, get_session_by_websocket, get_session_by_id,
    get_active_session_count, store_session in *. simpl in *.
  rewrite !lookup_insert_eq.
  destruct (String.eqb (connection_id s1) EmptyString); simpl;
    rewrite ?lookup_insert_eq; simpl; (split_and!; try done);
    by rewrite insert_insert_eq, map_size_insert_None.
Qed.

Lemma empty_session_id_is_never_removed_witness :
  let init_data : gmap string json :=
    {[ "type" := JStr "init"; "session_id" := JStr EmptyString ]} in
  init_data !! "session_id" = Some (JStr EmptyString)
  ∧ ∃ mgr' s,
      handle_init (ConnectionManager_init 50) 1%nat init_data example_env
      = Some (mgr', InitAccepted s)
      ∧ remove_session mgr' 1%nat = (mgr', false).
Proof.
  intros init_data.
  assert (Hid : init_data !! "session_id" = Some (JStr EmptyString))
    by (vm_compute; reflexivity).
  split; [exact Hid|].
  destruct (handle_init (ConnectionManager_init 50) 1%nat init_data example_env)
    as [[mgr' [| |s]]|] eqn:E; try (vm_compute in E; discriminate E).
  exists mgr', s. split; [reflexivity|].
  exact (proj1 (empty_session_id_is_never_removed _ _ _ _ _ _ E Hid)).
Defined.

(** Registering a session under identifiers and a websocket that are not
    in use keeps the three maps consistent. *)
Lemma consistent_register (mgr : ConnectionManager) (s : UserSession) :
  registry_consistent mgr →
  active_sessions mgr !! session_id s = None →
  connection_to_session mgr !! connection_id s = None →
  websocket_to_connection mgr !! websocket s = None →
  registry_consistent
    {| max_connections := max_connections mgr;
       active_sessions := <[session_id s := s]> (active_sessions mgr);
       connection_to_session :=
         <[connection_id s := session_id s]> (connection_to_session mgr);
       websocket_to_connection :=
         <[websocket s := connection_id s]> (websocket_to_connection mgr) |}.
Proof.
  intros (H1 & H2 & H3) Ha Hc Hw. split_and!; simpl.
  - intros ws c [[<- <-]|[Hne Hl]]%lookup_insert_Some.
    + exists s. by rewrite !lookup_insert_eq.
    + destruct (H1 _ _ Hl) as (s0 & Hcs & Has & <- & <-).
      exists s0. split_and!; try done.
      * rewrite lookup_insert_ne; [done|]. intros Heq. rewrite Heq in Hc. congruence.
      * rewrite lookup_insert_ne; [done|]. intros Heq. rewrite Heq in Ha. congruence.
  - intros c id [[<- <-]|[Hne Hl]]%lookup_insert_Some.
    + exists s. by rewrite !lookup_insert_eq.
    + destruct (H2 _ _ Hl) as (s0 & Has & <- & Hws).
      exists s0. split_and!; try done.
      * rewrite lookup_insert_ne; [done|]. intros Heq. rewrite Heq in Ha. congruence.
      * rewrite lookup_insert_ne; [done|]. intros Heq. rewrite Heq in Hw. congruence.
  - intros id s0 [[<- <-]|[Hne Hl]]%lookup_insert_Some.
    + by rewrite lookup_insert_eq.
    + destruct (H3 _ _ Hl) as (<- & Hcs). split; [done|].
      rewrite lookup_insert_ne; [done|]. intros Heq. rewrite Heq in Hc. congruence.
Qed.

Lemma consistent_create (mgr : ConnectionManager) (ws : nat)
    (sid cid : option string) (env : Env) :
  registry_consistent mgr →
  websocket_to_connection mgr !! ws = None →
  connection_to_session mgr !! default (fresh_connection_id env) cid = None →
  registry_consistent (create_session mgr ws sid cid env).1.
Proof.
  intros Hcons Hw Hc.
  destruct (create_session mgr ws sid cid env) as [mgr' [e|s]] eqn:E.
  - destruct (create_session_cases mgr ws sid cid env)
      as [[_ E']|[(_ & _ & E')|(_ & _ & E')]]; rewrite E' in E;
      by injection E as <-.
  - apply create_session_maps in E as (Ha & <- & _ & Hcid & _ & _ & _ & ->).
    simpl. apply consistent_register; try done. by rewrite Hcid.
Qed.

Lemma consistent_remove (mgr : ConnectionManager) (ws : nat) :
  registry_consistent mgr → registry_consistent (remove_session mgr ws).1.
Proof.
  intros Hcons. unfold remove_session.
  destruct (websocket_to_connection mgr !! ws) as [c|] eqn:Ew; [|done].
  destruct (String.eqb c EmptyString); [done|].
  destruct (connection_to_session mgr !! c) as [id|] eqn:Ec; [|done].
  destruct (String.eqb id EmptyString); [done|]. simpl.
  destruct Hcons as (H1 & H2 & H3).
  destruct (H1 _ _ Ew) as (s & Hcs & Has & Hws & Hcid).
  assert (session_id s = id) as Hid by congruence. subst id.
  split_and!; simpl.
  - intros ws0 c0 [Hne Hl]%lookup_delete_Some.
    destruct (H1 _ _ Hl) as (s0 & Hcs0 & Has0 & Hws0 & Hcid0).
    assert (session_id s0 ≠ session_id s) as Hsid.
    { intros Heq. rewrite Heq in Has0. congruence. }
    exists s0. split_and!; try done.
    + apply lookup_delete_Some. split; [|done]. intros <-. congruence.
    + apply lookup_delete_Some. by split.
  - intros c0 id0 [Hne Hl]%lookup_delete_Some.
    destruct (H2 _ _ Hl) as (s0 & Has0 & Hcid0 & Hws0).
    assert (id0 ≠ session_id s) as Hsid.
    { intros ->. congruence. }
    exists s0. split_and!; try done.
    + apply lookup_delete_Some. by split.
    + apply lookup_delete_Some. split; [|done]. intros Heq.
      rewrite <- Heq in Hws0. congruence.
  - intros id0 s0 [Hne Hl]%lookup_delete_Some.
    destruct (H3 _ _ Hl) as (Hsid & Hcs0). split; [done|].
    apply lookup_delete_Some. split; [|done]. intros Heq.
    rewrite <- Heq in Hcs0. congruence.
Qed.

Lemma consistent_handle_init (mgr mgr' : ConnectionManager) (ws : nat)
    (init_data : gmap string json) (env : Env) (o : InitOutcome) :
  handle_init mgr ws init_data env = Some (mgr', o) →
  registry_consistent mgr →
  websocket_to_connection mgr !! ws = None →
  connection_to_session mgr !! fresh_connection_id env = None →
  registry_consistent mgr'.
Proof.
  unfold handle_init. intros H Hcons Hw Hc.
  destruct (init_data !! "type") as [[| | |ty| |]|]; try by injection H as <- <-.
  destruct (String.eqb ty "init"); [|by injection H as <- <-].
  destruct (session_id_arg _) as [sid|]; [|done].
  destruct (create_session mgr ws sid None env) as [mgr1 [e|s]] eqn:E.
  - injection H as <- <-.
    pose proof (consistent_create mgr ws sid None env Hcons Hw Hc) as Hb.
    by rewrite E in Hb.
  - injection H as <- <-.
    apply create_session_maps in E as (Ha & <- & _ & Hcid & _ & _ & _ & ->).
    simpl in Hcid. unfold store_session. simpl. rewrite insert_insert_eq.
    match goal with |- context [<[session_id s := ?s']> _] =>
      apply (consistent_register mgr s') end; simpl; try done.
    by rewrite Hcid.
Qed.

Lemma consistent_init (ceiling : Z) :
  registry_consistent (ConnectionManager_init ceiling).
Proof.
  unfold registry_consistent, ConnectionManager_init. simpl.
  split_and!; intros ? ? H; by rewrite lookup_empty in H.
Qed.

Lemma example_manager_consistent (ceiling : Z) :
  registry_consistent (example_manager ceiling).
Proof.
  unfold example_manager.
  apply consistent_create; [apply consistent_init|reflexivity..].
Qed.

(** The three maps stay consistent: they are for a new manager, and this
    is kept by [remove_session] always, and by [create_session] and the
    init handshake when the websocket and the connection identifier of the
    new session are not already in use. *)
Theorem registry_consistent_preserved
    (mgr : ConnectionManager) (ws : nat) (env : Env) :
  (∀ ceiling, registry_consistent (ConnectionManager_init ceiling))
  ∧ (registry_consistent mgr → registry_consistent (remove_session mgr ws).1)
  ∧ (∀ sid cid,
       registry_consistent mgr →
       websocket_to_connection mgr !! ws = None →
       connection_to_session mgr !! default (fresh_connection_id env) cid = None →
       registry_consistent (create_session mgr ws sid cid env).1)
  ∧ (∀ init_data mgr' o,
       registry_consistent mgr →
       websocket_to_connection mgr !! ws = None →
       connection_to_session mgr !! fresh_connection_id env = None →
       handle_init mgr ws init_data env = Some (mgr', o) →
       registry_consistent mgr').
Proof.
  split_and!.
  - apply consistent_init.
  - apply consistent_remove.
  - intros sid cid. apply consistent_create.
  - intros init_data mgr' o Hcons Hw Hc H. by eapply consistent_handle_init.
Qed.

Lemma registry_consistent_preserved_witness :
  registry_consistent (example_manager 2)
  ∧ registry_consistent (remove_session (example_manager 2) 1%nat).1.
Proof.
  pose proof (registry_consistent_preserved (ConnectionManager_init 2) 1%nat
                example_env) as (H0 & _ & Hc & _).
  assert (H1 : registry_consistent (example_manager 2)).
  { apply (Hc (Some "alice") None (H0 2)); reflexivity. }
  split; [exact H1|].
  exact (proj1 (proj2 (registry_consistent_preserved (example_manager 2) 1%nat
                         example_env)) H1).
Defined.

(** In a consistent registry every active session whose identifiers are
    not empty is found through its websocket, and removing it through its
    websocket removes exactly that session. *)
Theorem consistent_lookup_and_remove
    (mgr : ConnectionManager) (id : string) (s : UserSession) :
  registry_consistent mgr →
  active_sessions mgr !! id = Some s →
  id ≠ EmptyString → connection_id s ≠ EmptyString →
  get_session_by_websocket mgr (websocket s) = Some s
  ∧ ∃ mgr', remove_session mgr (websocket s) = (mgr', true)
      ∧ active_sessions mgr' = delete id (active_sessions mgr)
      ∧ S (get_active_session_count mgr') = get_active_session_count mgr
      ∧ get_session_by_id mgr' id = None.
Proof.
  intros (H1 & H2 & H3) Ha Hid Hcid.
  destruct (H3 _ _ Ha) as (Hsid & Hcs).
  destruct (H2 _ _ Hcs) as (s0 & Has0 & _ & Hws0).
  assert (s0 = s) as -> by congruence.
  unfold get_session_by_websocket, remove_session, get_session_by_id,
    get_active_session_count.
  rewrite Hws0, eqb_empty_false, Hcs, eqb_empty_false by done.
  split; [done|]. eexists. split; [reflexivity|]. simpl.
  split_and!; try done.
  - rewrite map_size_delete_Some by (by eexists).
    assert (size (active_sessions mgr) ≠ 0%nat) as Hnz.
    { intros Hz. apply map_size_empty_inv in Hz. rewrite Hz in Ha.
      by rewrite lookup_empty in Ha. }
    lia.
  - apply lookup_delete_eq.
Qed.

Lemma consistent_lookup_and_remove_witness :
  ∃ s, active_sessions (example_manager 2) !! "alice" = Some s
    ∧ get_session_by_websocket (example_manager 2) (websocket s) = Some s.
Proof.
  destruct (active_sessions (example_manager 2) !! "alice") as [s|] eqn:E;
    [|vm_compute in E; discriminate E].
  assert (Hcid : connection_id s = "c0ffee")
    by (vm_compute in E; injection E as <-; reflexivity).
  exists s. split; [reflexivity|].
  refine (proj1 (consistent_lookup_and_remove (example_manager 2) "alice" s
                   (example_manager_consistent 2) E _ _)).
  - discriminate.
  - rewrite Hcid. discriminate.
Defined.

(* ===================================================================== *)
(** * The audio stream of a session                                        *)
(* ===================================================================== *)

(** With an empty buffer, the frame that carries [expected_seq] is
    released by the very call that inserts it. *)
Lemma add_frame_in_sync (jb : JitterBuffer) (d : bytes) :
  pending jb = [] → Deque.maxlen (buffer jb) ≠ Some 0%nat →
  add_frame jb d (expected_seq jb)
  = ({| buffer := Deque.mk [] None; sequence_number := sequence_number jb;
        expected_seq := expected_seq jb + 1 |}, Some d).
Proof.
  unfold pending. intros Hp Hm.
  unfold add_frame, add_frame_popped, Deque.append. rewrite Hp. simpl.
  destruct (Deque.maxlen (buffer jb)) as [[|n]|]; [done| |];
    simpl; by rewrite Z.eqb_refl.
Qed.

(** A control message touches nothing but the display and translation
    settings, and is answered by at most one reply, never an [Ack]. *)
Lemma control_message_frame (s s' : UserSession) (now : Z)
    (message : gmap string json) (replies : list Reply) :
  handle_session_control_message s now message = Some (s', replies) →
  session_id s' = session_id s ∧ connection_id s' = connection_id s
  ∧ websocket s' = websocket s ∧ jitter_buffer s' = jitter_buffer s
  ∧ audio_queue s' = audio_queue s ∧ stats s' = stats s
  ∧ language s' = language s ∧ created_at s' = created_at s
  ∧ acked replies = [] ∧ (length replies ≤ 1)%nat.
Proof.
  unfold handle_session_control_message. intros H.
  assert (Hdone : ∀ r, Some (s, r) = Some (s', replies) → acked r = [] →
            (length r ≤ 1)%nat →
            session_id s' = session_id s ∧ connection_id s' = connection_id s
            ∧ websocket s' = websocket s ∧ jitter_buffer s' = jitter_buffer s
            ∧ audio_queue s' = audio_queue s ∧ stats s' = stats s
            ∧ language s' = language s ∧ created_at s' = created_at s
            ∧ acked replies = [] ∧ (length replies ≤ 1)%nat).
  { intros r [= <- <-] ? ?. by split_and!. }
  destruct (message !! "type") as [[| | |ty| |]|];
    try (apply (Hdone _ H); [done|simpl; lia]).
  destruct (String.eqb ty "start_display").
  { injection H as <- <-. split_and!; (done || (simpl; lia)). }
  destruct (String.eqb ty "stop_display").
  { injection H as <- <-. split_and!; (done || (simpl; lia)). }
  destruct (String.eqb ty "enable_translation").
  { destruct (enabled_arg _) as [b|]; [|done].
    injection H as <- <-. split_and!; (done || (simpl; lia)). }
  destruct (String.eqb ty "ping"); apply (Hdone _ H); (done || (simpl; lia)).
Qed.

(** The loop body, seen from a state in which the jitter buffer is in
    sync with the counter of the handler. *)
Lemma handle_stream_message_spec (s s' : UserSession) (n n' : Z) (m : Message)
    (replies : list Reply) :
  pending (jitter_buffer s) = [] →
  Deque.maxlen (buffer (jitter_buffer s)) ≠ Some 0%nat →
  expected_seq (jitter_buffer s) = n →
  handle_stream_message s n m = Some (s', n', replies) →
  match m with
  | BinaryMessage t d =>
      n' = n + 1 ∧ replies = [Ack (session_id s) n t]
      ∧ pending (jitter_buffer s') = []
      ∧ Deque.maxlen (buffer (jitter_buffer s')) = None
      ∧ expected_seq (jitter_buffer s') = n + 1
      ∧ bytes_received (stats s') = bytes_received (stats s) + Z.of_nat (length d)
      ∧ frames_processed (stats s') = frames_processed (stats s) + 1
      ∧ jitter_buffer_size (stats s') = jitter_buffer_size (stats s)
      ∧ audio_queue s' =
          match d with
          | [] => audio_queue s
          | _ :: _ => if queue_full (audio_queue s) then audio_queue s
                      else queue_put (audio_queue s) (t, d)
          end
  | TextMessage _ _ =>
      n' = n ∧ acked replies = []
      ∧ jitter_buffer s' = jitter_buffer s
      ∧ stats s' = stats s ∧ audio_queue s' = audio_queue s
  end.
Proof.
  intros Hp Hm He H. destruct m as [now [message|]|t d]; simpl in H.
  - destruct (handle_session_control_message s now message) as [[s1 r]|] eqn:E;
      [|done].
    injection H as <- <- <-.
    apply control_message_frame in E as (_ & _ & _ & ? & ? & ? & _ & _ & ? & _).
    by split_and!.
  - injection H as <- <- <-. by split_and!.
  - subst n. rewrite add_frame_in_sync in H by done.
    injection H as <- <- <-. simpl.
    split_and!; try done.
    + do 2 f_equal. lia.
    + by destruct d.
Qed.

Lemma handle_stream_message_defined (s : UserSession) (n : Z) (m : Message) :
  event_in_model (Receive m) → is_Some (handle_stream_message s n m).
Proof.
  destruct m as [now [message|]|t d]; simpl; [|by eexists|].
  - intros Hm. unfold handle_session_control_message.
    destruct (message !! "type") as [[| | |ty| |]|] eqn:Et; try by eexists.
    destruct (String.eqb ty "start_display"); [by eexists|].
    destruct (String.eqb ty "stop_display"); [by eexists|].
    destruct (String.eqb ty "enable_translation") eqn:E; [|].
    + apply String.eqb_eq in E as ->. destruct (Hm eq_refl) as [b ->]. by eexists.
    + destruct (String.eqb ty "ping"); by eexists.
  - intros _. destruct (add_frame (jitter_buffer s) d n). by eexists.
Qed.

Lemma session_step_defined (st : SessionRun) (e : Event) :
  event_in_model e → is_Some (session_step st e).
Proof.
  destruct e as [m|awaited|]; simpl.
  - intros Hm.
    destruct (handle_stream_message_defined (run_session st)
                (run_sequence_number st) m Hm) as [[[s' n'] r] ->].
    by eexists.
  - intros _. destruct (queue_get _) as [q' poll].
    destruct (process_iteration _ poll awaited). by eexists.
  - by eexists.
Qed.

Lemma session_run_defined (events : list Event) (st : SessionRun) :
  Forall event_in_model events → is_Some (session_run st events).
Proof.
  revert st. induction events as [|e events IH]; intros st Hall; simpl.
  - by eexists.
  - apply Forall_cons in Hall as [He Hall].
    destruct (session_step_defined st e He) as [st' ->]. by apply IH.
Qed.

Lemma binary_frames_cons (e : Event) (events : list Event) :
  binary_frames (e :: events) = opt_list (frame_of_event e) ++ binary_frames events.
Proof. unfold binary_frames. simpl. by destruct (frame_of_event e). Qed.

Lemma acked_app (r1 r2 : list Reply) : acked (r1 ++ r2) = acked r1 ++ acked r2.
Proof. unfold acked. apply omap_app. Qed.

Lemma completed_batches_snoc (batches : list (bytes * Awaited))
    (b : bytes) (a : Awaited) :
  completed_batches (batches ++ [(b, a)])
  = completed_batches batches
    ++ match a with Completed => [b] | Interrupted => [] end.
Proof. unfold completed_batches. rewrite omap_app. by destruct a. Qed.

(** One event, from a state in sync. *)
Lemma session_step_sync (st st' : SessionRun) (e : Event) :
  in_sync st → session_step st e = Some st' →
  in_sync st'
  ∧ run_sequence_number st'
    = run_sequence_number st + Z.of_nat (length (opt_list (frame_of_event e)))
  ∧ acked (run_replies st')
    = acked (run_replies st)
      ++ ((λ _, run_sequence_number st) <$> opt_list (frame_of_event e))
  ∧ bytes_received (stats (run_session st'))
    = bytes_received (stats (run_session st))
      + Z.of_nat (length (concat (opt_list (frame_of_event e))))
  ∧ frames_processed (stats (run_session st'))
    = frames_processed (stats (run_session st))
      + Z.of_nat (length (opt_list (frame_of_event e)))
  ∧ (jitter_buffer_size (stats (run_session st)) = 0 →
     jitter_buffer_size (stats (run_session st')) = 0).
Proof.
  intros (Hp & Hm & He) H. destruct e as [m|awaited|]; simpl in H.
  - destruct (handle_stream_message _ _ m) as [[[s' n'] r]|] eqn:E; [|done].
    injection H as <-. simpl.
    pose proof (handle_stream_message_spec _ _ _ _ _ _ Hp Hm He E) as Hs.
    destruct m as [now dec|t d]; simpl.
    + destruct Hs as (-> & Hack & Hjb & Hst & Hq).
      unfold in_sync. simpl. rewrite Hjb, Hst, acked_app, Hack, !app_nil_r.
      split_and!; (done || lia).
    + destruct Hs as (-> & -> & Hp' & Hm' & He' & Hb & Hf & Hj & Hq).
      unfold in_sync. simpl. rewrite Hp', Hm', He', Hb, Hf, Hj, acked_app.
      rewrite app_nil_r. split_and!; try (done || lia).
  - destruct (queue_get _) as [q' poll].
    destruct (process_iteration _ poll awaited) as [acc' batch].
    injection H as <-. unfold in_sync. simpl. rewrite app_nil_r.
    split_and!; (done || lia).
  - injection H as <-. unfold in_sync. simpl. rewrite app_nil_r.
    split_and!; try (done || lia).
    intros _. unfold get_buffer_size. unfold pending in Hp. by rewrite Hp.
Qed.

Lemma session_run_sync (events : list Event) (st st' : SessionRun) :
  in_sync st → session_run st events = Some st' →
  in_sync st'
  ∧ run_sequence_number st'
    = run_sequence_number st + Z.of_nat (length (binary_frames events))
  ∧ acked (run_replies st')
    = acked (run_replies st)
      ++ seqZ (run_sequence_number st) (Z.of_nat (length (binary_frames events)))
  ∧ bytes_received (stats (run_session st'))
    = bytes_received (stats (run_session st))
      + Z.of_nat (length (concat (binary_frames events)))
  ∧ frames_processed (stats (run_session st'))
    = frames_processed (stats (run_session st))
      + Z.of_nat (length (binary_frames events))
  ∧ (jitter_buffer_size (stats (run_session st)) = 0 →
     jitter_buffer_size (stats (run_session st')) = 0).
Proof.
  revert st. induction events as [|e events IH]; intros st Hs H; simpl in H.
  - injection H as <-. unfold binary_frames. simpl. rewrite app_nil_r.
    split_and!; (done || lia).
  - destruct (session_step st e) as [st1|] eqn:E; [|done].
    destruct (session_step_sync _ _ _ Hs E) as (Hs1 & Hn & Ha & Hb & Hf & Hj).
    destruct (IH st1 Hs1 H) as (Hs' & Hn' & Ha' & Hb' & Hf' & Hj').
    rewrite binary_frames_cons, Hn', Ha', Hb', Hf', Hn, Ha, Hb, Hf.
    rewrite concat_app, !length_app.
    split_and!; try (done || lia).
    + rewrite <- app_assoc. f_equal.
      destruct (frame_of_event e) as [d|]; simpl.
      * rewrite (seqZ_cons (run_sequence_number st)) by lia. f_equal.
        f_equal; lia.
      * f_equal; lia.
Qed.

Lemma session_start_in_sync (session : UserSession) :
  jitter_buffer session = JitterBuffer_default → in_sync (session_start session).
Proof. unfold in_sync. simpl. intros ->. by split_and!. Qed.

(** The queue after one event. *)
Lemma session_step_queue (st st' : SessionRun) (e : Event) :
  session_step st e = Some st' →
  maxsize (audio_queue (run_session st')) = maxsize (audio_queue (run_session st))
  ∧ (0 < maxsize (audio_queue (run_session st)) →
     Z.of_nat (length (queue_items (audio_queue (run_session st))))
       ≤ maxsize (audio_queue (run_session st)) →
     Z.of_nat (length (queue_items (audio_queue (run_session st'))))
       ≤ maxsize (audio_queue (run_session st))).
Proof.
  destruct e as [[now [message|]|t d]|awaited|]; simpl; intros H.
  - destruct (handle_session_control_message _ now message) as [[s1 r]|] eqn:E;
      [|done].
    injection H as <-. simpl.
    apply control_message_frame in E as (_ & _ & _ & _ & -> & _). done.
  - by injection H as <-.
  - destruct (add_frame _ d _) as [jb' [[|b data]|]]; injection H as <-; simpl;
      try done.
    unfold queue_full.
    destruct (0 <? maxsize _) eqn:E1; simpl; [|split; [done|lia]].
    destruct (maxsize _ <=? _) eqn:E2; simpl; [done|].
    split; [done|]. intros _ _. rewrite length_app. simpl. lia.
  - unfold queue_get in H.
    destruct (queue_items (audio_queue (run_session st))) as [|[t d] rest] eqn:Eq;
      destruct (process_iteration _ _ awaited) as [acc' batch];
      injection H as <-; simpl; rewrite ?Eq; simpl; split; (done || lia).
  - by injection H as <-.
Qed.

(** The audio bytes after one event, from a state in sync: they are the
    bytes before, followed by the frame that came in, unless the queue was
    full. *)
Lemma session_step_bytes (st st' : SessionRun) (e : Event) :
  in_sync st → session_step st e = Some st' →
  ∃ kept,
    (kept = opt_list (frame_of_event e)
     ∨ (kept = [] ∧ queue_full (audio_queue (run_session st)) = true))
    ∧ bytes_in_flight st' = bytes_in_flight st ++ concat kept
    ∧ (length (queue_items (audio_queue (run_session st')))
       ≤ length (queue_items (audio_queue (run_session st)))
         + length (opt_list (frame_of_event e)))%nat.
Proof.
  intros (Hp & Hm & He) H. destruct e as [m|awaited|]; simpl in H.
  - destruct (handle_stream_message _ _ m) as [[[s' n'] r]|] eqn:E; [|done].
    injection H as <-.
    pose proof (handle_stream_message_spec _ _ _ _ _ _ Hp Hm He E) as Hs.
    unfold bytes_in_flight. simpl.
    destruct m as [now dec|t d]; simpl.
    + destruct Hs as (_ & _ & _ & _ & ->). exists []. simpl.
      rewrite !app_nil_r. split_and!; [by left|done|lia].
    + destruct Hs as (_ & _ & _ & _ & _ & _ & _ & _ & ->).
      destruct d as [|b d].
      * exists [[]]. simpl. rewrite !app_nil_r. split_and!; [by left|done|lia].
      * destruct (queue_full _) eqn:Ef.
        -- exists []. simpl. rewrite !app_nil_r. split_and!; [by right|done|lia].
        -- exists [b :: d]. unfold queue_put. simpl.
           rewrite fmap_app, concat_app, length_app. simpl.
           rewrite !app_nil_r, <- !app_assoc. split_and!; [by left|done|lia].
  - exists []. unfold bytes_in_flight.
    destruct (queue_get (audio_queue (run_session st))) as [q' poll] eqn:Eq.
    assert (Hq : concat (queue_items (audio_queue (run_session st))).*2
                 = poll_bytes poll ++ concat (queue_items q').*2
                 ∧ (length (queue_items q')
                    ≤ length (queue_items (audio_queue (run_session st))))%nat).
    { unfold queue_get in Eq.
      destruct (queue_items (audio_queue (run_session st)))
        as [|[t d] rest] eqn:Ei;
        injection Eq as <- <-; simpl; rewrite ?Ei; simpl; split; (done || lia). }
    destruct Hq as [Hq Hlen]. rewrite Hq.
    pose proof (process_iteration_spec (run_audio_buffer st) poll awaited) as Hi.
    destruct (process_iteration _ poll awaited) as [acc' [batch|]];
      injection H as <-; simpl; rewrite ?completed_batches_snoc, !app_nil_r.
    + destruct Hi as (_ & -> & ->).
      destruct awaited; simpl; rewrite ?concat_app; simpl;
        rewrite ?app_nil_r, <- ?app_assoc; (split_and!; [by left|done|lia]).
    + destruct Hi as (-> & _). rewrite <- !app_assoc.
      split_and!; [by left|done|lia].
  - injection H as <-. exists []. unfold bytes_in_flight. simpl.
    rewrite !app_nil_r. split_and!; [by left|done|lia].
Qed.

(** When the call of an audio-loop iteration returns, the batch it handed
    on is among the completed ones. *)
Lemma session_step_batches (st st' : SessionRun) (e : Event) :
  session_step st e = Some st' → event_completes e →
  completed_batches (run_batches st) = (run_batches st).*1 →
  completed_batches (run_batches st') = (run_batches st').*1.
Proof.
  destruct e as [m|[]|]; simpl; intros H Hc Hb; [| |done|].
  - destruct (handle_stream_message _ _ m) as [[[s' n'] r]|]; [|done].
    by injection H as <-.
  - destruct (queue_get _) as [q' poll].
    destruct (process_iteration _ poll Completed) as [acc' [batch|]];
      injection H as <-; simpl.
    + by rewrite completed_batches_snoc, fmap_app, Hb.
    + by rewrite app_nil_r.
  - by injection H as <-.
Qed.

Lemma session_run_batches (events : list Event) (st st' : SessionRun) :
  session_run st events = Some st' → Forall event_completes events →
  completed_batches (run_batches st) = (run_batches st).*1 →
  completed_batches (run_batches st') = (run_batches st').*1.
Proof.
  revert st. induction events as [|e events IH]; intros st H Hc Hb; simpl in H.
  - by injection H as <-.
  - destruct (session_step st e) as [st1|] eqn:E; [|done].
    apply Forall_cons in Hc as [He Hc].
    exact (IH st1 H Hc (session_step_batches _ _ _ E He Hb)).
Qed.

Lemma session_run_queue (events : list Event) (st st' : SessionRun) :
  session_run st events = Some st' →
  0 < maxsize (audio_queue (run_session st)) →
  Z.of_nat (length (queue_items (audio_queue (run_session st))))
    ≤ maxsize (audio_queue (run_session st)) →
  maxsize (audio_queue (run_session st')) = maxsize (audio_queue (run_session st))
  ∧ Z.of_nat (length (queue_items (audio_queue (run_session st'))))
    ≤ maxsize (audio_queue (run_session st)).
Proof.
  revert st. induction events as [|e events IH]; intros st H Hpos Hle; simpl in H.
  - by injection H as <-.
  - destruct (session_step st e) as [st1|] eqn:E; [|done].
    destruct (session_step_queue _ _ _ E) as [Hmax Hlen].
    specialize (Hlen Hpos Hle). rewrite <- Hmax in *. by apply IH.
Qed.

Lemma session_run_bytes (events : list Event) (st st' : SessionRun) :
  in_sync st → session_run st events = Some st' →
  ∃ kept,
    sublist kept (binary_frames events)
    ∧ bytes_in_flight st' = bytes_in_flight st ++ concat kept
    ∧ ((maxsize (audio_queue (run_session st)) ≤ 0
        ∨ Z.of_nat (length (queue_items (audio_queue (run_session st)))
                    + length (binary_frames events))
          ≤ maxsize (audio_queue (run_session st))) →
       kept = binary_frames events).
Proof.
  revert st. induction events as [|e events IH]; intros st Hs H; simpl in H.
  - injection H as <-. exists []. rewrite app_nil_r. by split_and!.
  - destruct (session_step st e) as [st1|] eqn:E; [|done].
    destruct (session_step_sync _ _ _ Hs E) as (Hs1 & _).
    destruct (session_step_queue _ _ _ E) as [Hmax _].
    destruct (session_step_bytes _ _ _ Hs E) as (k1 & Hk1 & Hb1 & Hq1).
    destruct (IH st1 Hs1 H) as (k2 & Hsub & Hb2 & Hall).
    exists (k1 ++ k2). rewrite binary_frames_cons. split_and!.
    + apply sublist_app; [|done].
      destruct Hk1 as [->|[-> _]]; [done|apply sublist_nil_l].
    + by rewrite Hb2, Hb1, concat_app, <- app_assoc.
    + intros Hroom. rewrite length_app in Hroom. f_equal.
      * destruct Hk1 as [->|[-> Hfull]]; [done|].
        destruct (frame_of_event e) as [d|]; [|done]. exfalso.
        unfold queue_full in Hfull. simpl in Hroom.
        apply andb_true_iff in Hfull as [H1%Z.ltb_lt H2%Z.leb_le]. lia.
      * apply Hall. rewrite Hmax. destruct Hroom as [?|?]; [by left|right]. lia.
Qed.

(** In the stream handler of a session the jitter buffer never holds a
    frame back: the handler numbers the frames 0, 1, 2, ... itself, so
    each frame is released by the call that inserts it.  After any run of
    messages, audio-loop iterations and statistics updates the buffer is
    empty, [expected_seq] is the number of frames received, the frames were
    acknowledged with the numbers 0, 1, 2, ... in order, and the
    [jitter_buffer_size] statistic still has its initial value 0. *)
Theorem stream_frames_pass_straight_through
    (session : UserSession) (events : list Event) :
  jitter_buffer session = JitterBuffer_default →
  Forall event_in_model events →
  ∃ st, session_run (session_start session) events = Some st
    ∧ get_buffer_size (jitter_buffer (run_session st)) = 0%nat
    ∧ expected_seq (jitter_buffer (run_session st))
      = Z.of_nat (length (binary_frames events))
    ∧ acked (run_replies st) = seqZ 0 (Z.of_nat (length (binary_frames events)))
    ∧ (jitter_buffer_size (stats session) = 0 →
       jitter_buffer_size (stats (run_session st)) = 0).
Proof.
  intros Hjb Hall.
  destruct (session_run_defined events (session_start session) Hall) as [st Hrun].
  exists st. split; [done|].
  destruct (session_run_sync events _ _ (session_start_in_sync _ Hjb) Hrun)
    as ((Hp & _ & He) & Hn & Ha & _ & _ & Hj).
  simpl in *. unfold get_buffer_size. unfold pending in Hp.
  rewrite Hp, He, Hn, Ha. by split_and!.
Qed.

(** The statistics of a session count every binary frame, also the empty
    ones and the ones dropped at a full queue: [frames_processed] grows by
    the number of frames and [bytes_received] by their total length. *)
Theorem stream_counts_every_frame
    (session : UserSession) (events : list Event) :
  jitter_buffer session = JitterBuffer_default →
  Forall event_in_model events →
  ∃ st, session_run (session_start session) events = Some st
    ∧ frames_processed (stats (run_session st))
      = frames_processed (stats session) + Z.of_nat (length (binary_frames events))
    ∧ bytes_received (stats (run_session st))
      = bytes_received (stats session)
        + Z.of_nat (length (concat (binary_frames events))).
Proof.
  intros Hjb Hall.
  destruct (session_run_defined events (session_start session) Hall) as [st Hrun].
  exists st. split; [done|].
  destruct (session_run_sync events _ _ (session_start_in_sync _ Hjb) Hrun)
    as (_ & _ & _ & Hb & Hf & _).
  by split.
Qed.

(** The audio queue of a session never holds more than [maxsize] items
    (1000 for a session made by [create_session]), whatever the order of
    messages and audio-loop iterations. *)
Theorem audio_queue_stays_bounded
    (session : UserSession) (events : list Event) :
  0 < maxsize (audio_queue session) →
  Z.of_nat (length (queue_items (audio_queue session))) ≤ maxsize (audio_queue session) →
  Forall event_in_model events →
  ∃ st, session_run (session_start session) events = Some st
    ∧ maxsize (audio_queue (run_session st)) = maxsize (audio_queue session)
    ∧ Z.of_nat (length (queue_items (audio_queue (run_session st))))
      ≤ maxsize (audio_queue session).
Proof.
  intros Hpos Hle Hall.
  destruct (session_run_defined events (session_start session) Hall) as [st Hrun].
  exists st. split; [done|].
  exact (session_run_queue events _ _ Hrun Hpos Hle).
Qed.

(** No audio byte is invented, lost past the queue or reordered between
    the socket and transcription: the batches whose transcription call
    returned, the accumulator and the queue together hold, in arrival
    order, the frames received less those dropped at a full queue; and when
    no more frames arrive than the queue can hold, they hold all the bytes
    received.  A batch whose call was interrupted is not among them: its
    bytes are still in the accumulator and are handed on again with the
    next batch.  When every call returns, every batch handed on is counted,
    so no byte is handed on twice. *)
Theorem audio_bytes_are_conserved
    (session : UserSession) (events : list Event) :
  jitter_buffer session = JitterBuffer_default →
  queue_items (audio_queue session) = [] →
  Forall event_in_model events →
  ∃ st kept, session_run (session_start session) events = Some st
    ∧ sublist kept (binary_frames events)
    ∧ bytes_in_flight st = concat kept
    ∧ ((maxsize (audio_queue session) ≤ 0
        ∨ Z.of_nat (length (binary_frames events)) ≤ maxsize (audio_queue session)) →
       bytes_in_flight st = concat (binary_frames events))
    ∧ (Forall event_completes events →
       concat (run_batches st).*1 ++ run_audio_buffer st
         ++ concat (queue_items (audio_queue (run_session st))).*2
       = concat kept).
Proof.
  intros Hjb Hq Hall.
  destruct (session_run_defined events (session_start session) Hall) as [st Hrun].
  destruct (session_run_bytes events _ _ (session_start_in_sync _ Hjb) Hrun)
    as (kept & Hsub & Hb & Hfull).
  unfold bytes_in_flight at 2 in Hb. simpl in Hb, Hfull.
  rewrite Hq in Hb, Hfull. simpl in Hb, Hfull.
  exists st, kept. split_and!; try done.
  - intros Hroom. rewrite Hb. f_equal. apply Hfull.
    destruct Hroom as [?|?]; [by left|by right].
  - intros Hc. rewrite <- Hb. unfold bytes_in_flight.
    by rewrite (session_run_batches events _ _ Hrun Hc eq_refl).
Qed.

Lemma example_events_in_model : Forall event_in_model example_events.
Proof.
  unfold example_events. repeat constructor.
  intros H. vm_compute in H. discriminate H.
Qed.

Lemma stream_frames_pass_straight_through_witness :
  jitter_buffer example_session = JitterBuffer_default
  ∧ ∃ st, session_run (session_start example_session) example_events = Some st
      ∧ acked (run_replies st) = [0; 1].
Proof.
  split; [reflexivity|].
  destruct (stream_frames_pass_straight_through example_session example_events
              eq_refl example_events_in_model) as (st & Hrun & _ & _ & Hack & _).
  exists st. split; [exact Hrun|exact Hack].
Defined.

Lemma stream_counts_every_frame_witness :
  ∃ st, session_run (session_start example_session) example_events = Some st
    ∧ frames_processed (stats (run_session st)) = 2
    ∧ bytes_received (stats (run_session st)) = 3.
Proof.
  destruct (stream_counts_every_frame example_session example_events
              eq_refl example_events_in_model) as (st & Hrun & Hf & Hb).
  exists st. split; [exact Hrun|]. split; [exact Hf|exact Hb].
Defined.

Lemma audio_queue_stays_bounded_witness :
  ∃ st, session_run (session_start example_session) example_events = Some st
    ∧ Z.of_nat (length (queue_items (audio_queue (run_session st)))) ≤ 1000.
Proof.
  assert (H1 : 0 < maxsize (audio_queue example_session)) by reflexivity.
  assert (H2 : Z.of_nat (length (queue_items (audio_queue example_session)))
               ≤ maxsize (audio_queue example_session)) by discriminate.
  destruct (audio_queue_stays_bounded example_session example_events H1 H2
              example_events_in_model) as (st & Hrun & _ & Hle).
  exists st. split; [exact Hrun|exact Hle].
Defined.

Lemma audio_bytes_are_conserved_witness :
  ∃ st, session_run (session_start example_session) example_events = Some st
    ∧ bytes_in_flight st = [Byte.x01; Byte.x02; Byte.x03].
Proof.
  destruct (audio_bytes_are_conserved example_session example_events
              eq_refl eq_refl example_events_in_model)
    as (st & kept & Hrun & _ & _ & Hall & _).
  exists st. split; [exact Hrun|].
  apply Hall. right. discriminate.
Defined.

(* ===================================================================== *)
(** * The WAV header                                                       *)
(* ===================================================================== *)

Lemma Z_of_byte_of_Z (z : Z) : 0 ≤ z < 256 → Z_of_byte (byte_of_Z z) = z.
Proof.
  intros Hz. unfold Z_of_byte, byte_of_Z.
  destruct (Byte.of_N (Z.to_N z)) as [b|] eqn:E; simpl.
  - apply Byte.to_of_N in E. rewrite E. lia.
  - apply Byte.of_N_None_iff in E. lia.
Qed.

Lemma length_le_bytes (n : nat) (v : Z) : length (le_bytes n v) = n.
Proof. revert v. induction n as [|n IH]; intros v; simpl; [done|]. by rewrite IH. Qed.

(** Decoding the little-endian bytes of a number in range gives it back. *)
Lemma le_value_le_bytes (n : nat) (v : Z) :
  0 ≤ v < 2 ^ (8 * Z.of_nat n) → le_value (le_bytes n v) = v.
Proof.
  revert v. induction n as [|n IH]; intros v Hv.
  - simpl in *. lia.
  - change (le_value (le_bytes (S n) v))
      with (Z_of_byte (byte_of_Z (v mod 256)) + 256 * le_value (le_bytes n (v / 256))).
    replace (8 * Z.of_nat (S n)) with (8 + 8 * Z.of_nat n) in Hv by lia.
    rewrite Z.pow_add_r in Hv by lia. change (2 ^ 8) with 256 in Hv.
    rewrite Z_of_byte_of_Z by (apply Z.mod_pos_bound; lia).
    rewrite IH.
    + pose proof (Z.div_mod v 256). lia.
    + split; [apply Z.div_pos; lia|]. apply Z.div_lt_upper_bound; lia.
Qed.

Lemma pack_uint_Some (n : nat) (v : Z) (l : bytes) :
  pack_uint n v = Some l ↔ 0 ≤ v < 2 ^ (8 * Z.of_nat n) ∧ l = le_bytes n v.
Proof.
  unfold pack_uint.
  destruct (0 <=? v) eqn:E1; destruct (v <? 2 ^ (8 * Z.of_nat n)) eqn:E2; simpl;
    split; try done; try (intros [= <-]); try (intros [? ->]); try done;
    try (split; [lia|done]); lia.
Qed.

Lemma pack_uint_is_Some (n : nat) (v : Z) :
  is_Some (pack_uint n v) ↔ 0 ≤ v < 2 ^ (8 * Z.of_nat n).
Proof.
  split.
  - intros [l Hl]. by apply pack_uint_Some in Hl as [? _].
  - intros Hv. exists (le_bytes n v). by apply pack_uint_Some.
Qed.

(** The header spelled out, when every field is in range. *)
Lemma create_wav_header_Some (d c r b : Z) (h : bytes) :
  create_wav_header d c r b = Some h ↔
  (0 ≤ 36 + d < 2 ^ (8 * Z.of_nat 4) ∧ 0 ≤ c < 2 ^ (8 * Z.of_nat 2)
   ∧ 0 ≤ r < 2 ^ (8 * Z.of_nat 4)
   ∧ 0 ≤ r * c * b / 8 < 2 ^ (8 * Z.of_nat 4)
   ∧ 0 ≤ c * b / 8 < 2 ^ (8 * Z.of_nat 2)
   ∧ 0 ≤ b < 2 ^ (8 * Z.of_nat 2) ∧ 0 ≤ d < 2 ^ (8 * Z.of_nat 4))
  ∧ h = String.list_byte_of_string "RIFF" ++ le_bytes 4 (36 + d)
        ++ String.list_byte_of_string "WAVE" ++ String.list_byte_of_string "fmt "
        ++ le_bytes 4 16 ++ le_bytes 2 1 ++ le_bytes 2 c ++ le_bytes 4 r
        ++ le_bytes 4 (r * c * b / 8) ++ le_bytes 2 (c * b / 8) ++ le_bytes 2 b
        ++ String.list_byte_of_string "data" ++ le_bytes 4 d.
Proof.
  unfold create_wav_header.
  change (pack_uint 4 16) with (Some (le_bytes 4 16)).
  change (pack_uint 2 1) with (Some (le_bytes 2 1)).
  split.
  - intros H.
    destruct (pack_uint 4 (36 + d)) as [l1|] eqn:E1; [|done].
    simpl in H.
    destruct (pack_uint 2 c) as [l2|] eqn:E2; [|done].
    destruct (pack_uint 4 r) as [l3|] eqn:E3; [|done].
    destruct (pack_uint 4 (r * c * b / 8)) as [l4|] eqn:E4; [|done].
    destruct (pack_uint 2 (c * b / 8)) as [l5|] eqn:E5; [|done].
    destruct (pack_uint 2 b) as [l6|] eqn:E6; [|done].
    destruct (pack_uint 4 d) as [l7|] eqn:E7; [|done].
    simpl in H. injection H as <-.
    apply pack_uint_Some in E1 as [? ->], E2 as [? ->], E3 as [? ->],
      E4 as [? ->], E5 as [? ->], E6 as [? ->], E7 as [? ->].
    split; [tauto|reflexivity].
  - intros [(H1 & H2 & H3 & H4 & H5 & H6 & H7) ->].
    rewrite (proj2 (pack_uint_Some 4 (36 + d) _) (conj H1 eq_refl)). simpl.
    rewrite (proj2 (pack_uint_Some 2 c _) (conj H2 eq_refl)).
    rewrite (proj2 (pack_uint_Some 4 r _) (conj H3 eq_refl)).
    rewrite (proj2 (pack_uint_Some 4 (r * c * b / 8) _) (conj H4 eq_refl)).
    rewrite (proj2 (pack_uint_Some 2 (c * b / 8) _) (conj H5 eq_refl)).
    rewrite (proj2 (pack_uint_Some 2 b _) (conj H6 eq_refl)).
    rewrite (proj2 (pack_uint_Some 4 d _) (conj H7 eq_refl)).
    done.
Qed.

(** [_create_wav_header] raises [struct.error] exactly when a field does
    not fit its format: the header exists if and only if [data_size] is
    between 0 and 2^32 - 37, the rate fits 32 bits, the channels and the
    sample width fit 16 bits, and so do the byte rate (32 bits) and the
    block alignment (16 bits) computed from them.  With the default
    configuration the file of a batch can be written if and only if the
    batch is at most 4294967259 bytes long. *)
Theorem wav_header_defined_iff (d c r b : Z) (audio_data : bytes) :
  (is_Some (create_wav_header d c r b) ↔
     0 ≤ d ≤ 4294967259 ∧ 0 ≤ c ≤ 65535 ∧ 0 ≤ r ≤ 4294967295 ∧ 0 ≤ b ≤ 65535
     ∧ r * c * b / 8 ≤ 4294967295 ∧ c * b / 8 ≤ 65535)
  ∧ (is_Some (wav_file AudioConfig_default audio_data) ↔
     Z.of_nat (length audio_data) ≤ 4294967259).
Proof.
  assert (Hiff : ∀ d c r b, is_Some (create_wav_header d c r b) ↔
     0 ≤ d ≤ 4294967259 ∧ 0 ≤ c ≤ 65535 ∧ 0 ≤ r ≤ 4294967295 ∧ 0 ≤ b ≤ 65535
     ∧ r * c * b / 8 ≤ 4294967295 ∧ c * b / 8 ≤ 65535).
  { clear. intros d c r b. split.
    - intros [h Hh]. apply create_wav_header_Some in Hh as [Hr _].
      change (2 ^ (8 * Z.of_nat 4)) with 4294967296 in Hr.
      change (2 ^ (8 * Z.of_nat 2)) with 65536 in Hr. lia.
    - intros (Hd & Hc & Hr & Hb & Hbr & Hba). eexists.
      apply create_wav_header_Some. split; [|reflexivity].
      change (2 ^ (8 * Z.of_nat 4)) with 4294967296.
      change (2 ^ (8 * Z.of_nat 2)) with 65536.
      assert (0 ≤ r * c * b / 8) by (apply Z.div_pos; nia).
      assert (0 ≤ c * b / 8) by (apply Z.div_pos; nia).
      lia. }
  split; [apply Hiff|].
  unfold wav_file. simpl.
  split.
  - intros [f Hf].
    destruct (create_wav_header _ 1 16000 16) as [h|] eqn:E; [|done].
    assert (is_Some (create_wav_header (Z.of_nat (length audio_data)) 1 16000 16))
      as Hs by (by eexists).
    apply Hiff in Hs. lia.
  - intros Hlen.
    destruct (proj2 (Hiff (Z.of_nat (length audio_data)) 1 16000 16)) as [h ->].
    + change (16000 * 1 * 16 / 8) with 32000. change (1 * 16 / 8) with 2. lia.
    + by eexists.
Qed.

(** The fields of a header that the file of a batch relies on. *)
Lemma create_wav_header_fields (d c r b : Z) (h : bytes) :
  create_wav_header d c r b = Some h →
  length h = 44%nat
  ∧ field h 0 4 = String.list_byte_of_string "RIFF"
  ∧ le_value (field h 4 4) = 36 + d
  ∧ le_value (field h 22 2) = c
  ∧ le_value (field h 24 4) = r
  ∧ le_value (field h 34 2) = b
  ∧ le_value (field h 40 4) = d.
Proof.
  intros H. apply create_wav_header_Some in H
    as [(H1 & H2 & H3 & H4 & H5 & H6 & H7) ->].
  split_and!; try reflexivity.
  - change (le_value (le_bytes 4 (36 + d)) = 36 + d). by apply le_value_le_bytes.
  - change (le_value (le_bytes 2 c) = c). by apply le_value_le_bytes.
  - change (le_value (le_bytes 4 r) = r). by apply le_value_le_bytes.
  - change (le_value (le_bytes 2 b) = b). by apply le_value_le_bytes.
  - change (le_value (le_bytes 4 d) = d). by apply le_value_le_bytes.
Qed.

(** The header is 44 bytes long and can be read back: the four tags stand
    at offsets 0, 8, 12 and 36, and the little-endian fields hold the chunk
    size [36 + data_size], the format size 16, the PCM format 1, the
    channels, the sample rate, the byte rate, the block alignment, the
    sample width and [data_size]. *)
Theorem wav_header_round_trip (d c r b : Z) (h : bytes) :
  create_wav_header d c r b = Some h →
  length h = 44%nat
  ∧ field h 0 4 = String.list_byte_of_string "RIFF"
  ∧ le_value (field h 4 4) = 36 + d
  ∧ field h 8 4 = String.list_byte_of_string "WAVE"
  ∧ field h 12 4 = String.list_byte_of_string "fmt "
  ∧ le_value (field h 16 4) = 16
  ∧ le_value (field h 20 2) = 1
  ∧ le_value (field h 22 2) = c
  ∧ le_value (field h 24 4) = r
  ∧ le_value (field h 28 4) = r * c * b / 8
  ∧ le_value (field h 32 2) = c * b / 8
  ∧ le_value (field h 34 2) = b
  ∧ field h 36 4 = String.list_byte_of_string "data"
  ∧ le_value (field h 40 4) = d.
Proof.
  intros H. apply create_wav_header_Some in H
    as [(H1 & H2 & H3 & H4 & H5 & H6 & H7) ->].
  split_and!; try reflexivity.
  - change (le_value (le_bytes 4 (36 + d)) = 36 + d). by apply le_value_le_bytes.
  - change (le_value (le_bytes 2 c) = c). by apply le_value_le_bytes.
  - change (le_value (le_bytes 4 r) = r). by apply le_value_le_bytes.
  - change (le_value (le_bytes 4 (r * c * b / 8)) = r * c * b / 8).
    by apply le_value_le_bytes.
  - change (le_value (le_bytes 2 (c * b / 8)) = c * b / 8).
    by apply le_value_le_bytes.
  - change (le_value (le_bytes 2 b) = b). by apply le_value_le_bytes.
  - change (le_value (le_bytes 4 d) = d). by apply le_value_le_bytes.
Qed.

Lemma wav_header_round_trip_witness :
  ∃ h, create_wav_header 8192 1 16000 16 = Some h
    ∧ le_value (field h 40 4) = 8192
    ∧ le_value (field h 28 4) = 32000.
Proof.
  destruct (create_wav_header 8192 1 16000 16) as [h|] eqn:E;
    [|vm_compute in E; discriminate E].
  exists h. split; [reflexivity|].
  pose proof (wav_header_round_trip 8192 1 16000 16 h E) as H.
  split; [exact (proj2 (proj2 (proj2 (proj2 (proj2 (proj2 (proj2 (proj2
                  (proj2 (proj2 (proj2 (proj2 (proj2 H)))))))))))))|].
  exact (proj1 (proj2 (proj2 (proj2 (proj2 (proj2 (proj2 (proj2 (proj2
           (proj2 H)))))))))).
Defined.

Lemma field_app_l (h rest : bytes) (offset len : nat) :
  (offset + len ≤ length h)%nat → field (h ++ rest) offset len = field h offset len.
Proof.
  intros Hle. unfold field.
  rewrite drop_app_le by lia. rewrite take_app_le; [done|].
  rewrite length_drop. lia.
Qed.

(** The temporary file written for a batch is the 44-byte header followed
    by the audio; its chunk-size field is the length of the file less 8 and
    its data-size field is the length of the audio. *)
Theorem wav_file_layout (cfg : AudioConfig) (audio_data f : bytes) :
  wav_file cfg audio_data = Some f →
  length f = (44 + length audio_data)%nat
  ∧ drop 44 f = audio_data
  ∧ field f 0 4 = String.list_byte_of_string "RIFF"
  ∧ le_value (field f 4 4) = Z.of_nat (length f) - 8
  ∧ le_value (field f 22 2) = channels cfg
  ∧ le_value (field f 24 4) = sample_rate cfg
  ∧ le_value (field f 34 2) = 16
  ∧ le_value (field f 40 4) = Z.of_nat (length audio_data).
Proof.
  unfold wav_file. intros H.
  destruct (create_wav_header _ (channels cfg) (sample_rate cfg) 16) as [h|] eqn:E;
    [|done].
  simpl in H. injection H as <-.
  destruct (create_wav_header_fields _ _ _ _ _ E)
    as (Hlen & Hriff & Hsize & Hch & Hsr & Hbits & Hdata).
  rewrite length_app, Hlen, !field_app_l by (rewrite Hlen; lia).
  rewrite drop_app_length' by done.
  split_and!; try done. lia.
Qed.

Lemma wav_file_layout_witness :
  ∃ f, wav_file AudioConfig_default [Byte.x01; Byte.x02] = Some f
    ∧ length f = 46%nat
    ∧ drop 44 f = [Byte.x01; Byte.x02].
Proof.
  destruct (wav_file AudioConfig_default [Byte.x01; Byte.x02]) as [f|] eqn:E;
    [|vm_compute in E; discriminate E].
  exists f. split; [reflexivity|].
  pose proof (wav_file_layout _ _ _ E) as (Hlen & Hdrop & _).
  split; [exact Hlen|exact Hdrop].
Defined.

(* ===================================================================== *)
(** * Control messages                                                     *)
(* ===================================================================== *)

(** A control message changes nothing of a session but its display and
    translation settings: the identifiers, the websocket, the jitter
    buffer, the audio queue and the statistics are as before.  It is
    answered by at most one reply, which is never a frame acknowledgement;
    and a message whose type is missing or not one of the four known types
    changes nothing at all and is not answered. *)
Theorem control_message_effects (s s' : UserSession) (now : Z)
    (message : gmap string json) (replies : list Reply) :
  handle_session_control_message s now message = Some (s', replies) →
  (session_id s' = session_id s ∧ connection_id s' = connection_id s
   ∧ websocket s' = websocket s ∧ jitter_buffer s' = jitter_buffer s
   ∧ audio_queue s' = audio_queue s ∧ stats s' = stats s
   ∧ language s' = language s ∧ created_at s' = created_at s
   ∧ acked replies = [] ∧ (length replies ≤ 1)%nat)
  ∧ ((∀ ty, message !! "type" = Some (JStr ty) →
        ty ≠ "start_display" ∧ ty ≠ "stop_display"
        ∧ ty ≠ "enable_translation" ∧ ty ≠ "ping") →
     s' = s ∧ replies = []).
Proof.
  intros H. split; [by eapply control_message_frame|].
  intros Hother. unfold handle_session_control_message in H.
  destruct (message !! "type") as [[| | |ty| |]|]; try by injection H as <- <-.
  destruct (Hother ty eq_refl) as (H1 & H2 & H3 & H4).
  apply String.eqb_neq in H1, H2, H3, H4. rewrite H1, H2, H3, H4 in H.
  by injection H as <- <-.
Qed.

Lemma control_message_effects_witness :
  ∃ s', handle_session_control_message example_session 0
          {[ "type" := JStr "stop_display" ]}
        = Some (s', [ControlResponse "alice" "stop_display" None])
      ∧ jitter_buffer s' = jitter_buffer example_session.
Proof.
  destruct (handle_session_control_message example_session 0
              {[ "type" := JStr "stop_display" ]}) as [[s' r]|] eqn:E;
    [|vm_compute in E; discriminate E].
  pose proof (control_message_effects _ _ _ _ _ E) as [(_ & _ & _ & Hjb & _) _].
  exists s'. split; [|exact Hjb].
  vm_compute in E. injection E as <- <-. reflexivity.
Defined.

(* ===================================================================== *)
(** * Request validation                                                   *)
(* ===================================================================== *)

Lemma version_differs_false (sv : string) (v : json) :
  version_differs sv v = false ↔ v = JStr sv.
Proof.
  destruct v; simpl; try (split; [done|intros [=]]).
  rewrite negb_false_iff, String.eqb_eq. split; [by intros ->|by intros [= ->]].
Qed.

Lemma dom_required (request_data : gmap string json) :
  dom request_data = list_to_set required_fields ↔
  dom request_data ⊆ list_to_set required_fields
  ∧ is_Some (request_data !! "version") ∧ is_Some (request_data !! "request_id")
  ∧ is_Some (request_data !! "source") ∧ is_Some (request_data !! "intent")
  ∧ is_Some (request_data !! "expect").
Proof.
  rewrite <- !elem_of_dom. unfold required_fields. simpl. split.
  - intros ->. split; [done|].
    rewrite !elem_of_union, !elem_of_singleton. tauto.
  - intros (Hsub & H1 & H2 & H3 & H4 & H5). apply (anti_symm (⊆)); [done|].
    intros k. rewrite !elem_of_union, !elem_of_singleton, elem_of_empty.
    intros [->|[->|[->|[->|[->|[]]]]]]; done.
Qed.

(** An accepted request carries the [request_id] of the dictionary. *)
Lemma validate_request_request_id
    (sv : string) (request_data : gmap string json) (req : APIRequest) :
  validate_request sv request_data = inr req →
  request_data !! "request_id" = Some (request_id req).
Proof.
  unfold validate_request. intros H.
  destruct (request_data !! "version") as [v|]; [|done].
  destruct (request_data !! "request_id") as [r|]; [|done].
  destruct (request_data !! "source") as [s|]; [|done].
  destruct (request_data !! "intent") as [i|]; [|done].
  destruct (request_data !! "expect") as [e|]; [|done].
  destruct (version_differs sv v); [done|].
  case_bool_decide; [|done]. by injection H as <-.
Qed.

(** [_validate_request] accepts a request if and only if its keys are
    exactly [version], [request_id], [source], [intent] and [expect] and
    its version is the string of the service version; the request built
    holds the five values. *)
Theorem validate_request_accepts_iff
    (sv : string) (request_data : gmap string json) (req : APIRequest) :
  validate_request sv request_data = inr req ↔
  dom request_data = list_to_set required_fields
  ∧ version req = JStr sv
  ∧ request_data !! "version" = Some (version req)
  ∧ request_data !! "request_id" = Some (request_id req)
  ∧ request_data !! "source" = Some (source req)
  ∧ request_data !! "intent" = Some (intent req)
  ∧ request_data !! "expect" = Some (expect req).
Proof.
  rewrite dom_required. unfold validate_request. split.
  - intros H.
    destruct (request_data !! "version") as [v|]; [|done].
    destruct (request_data !! "request_id") as [r|]; [|done].
    destruct (request_data !! "source") as [s|]; [|done].
    destruct (request_data !! "intent") as [i|]; [|done].
    destruct (request_data !! "expect") as [e|]; [|done].
    destruct (version_differs sv v) eqn:Ev; [done|].
    apply version_differs_false in Ev as ->.
    case_bool_decide as Hsub; [|done].
    injection H as <-. simpl. by split_and!.
  - intros ((Hsub & _) & Hv & -> & -> & -> & -> & ->).
    rewrite Hv. rewrite (proj2 (version_differs_false sv (JStr sv)) eq_refl).
    rewrite bool_decide_eq_true_2 by done. destruct req; simpl in *. by subst.
Qed.

(** The errors of [_validate_request] in their order: the first required
    field that is missing is reported; with all five present, a version
    that is not the service version; and only then a key that is not a
    field of [APIRequest]. *)
Theorem validate_request_errors
    (sv : string) (request_data : gmap string json) :
  (∀ f, validate_request sv request_data = inl (MissingField f) ↔
     ∃ before after, required_fields = before ++ f :: after
       ∧ request_data !! f = None
       ∧ Forall (λ g, is_Some (request_data !! g)) before)
  ∧ (∀ v, validate_request sv request_data = inl (VersionMismatch v) ↔
       Forall (λ g, is_Some (request_data !! g)) required_fields
       ∧ request_data !! "version" = Some v ∧ v ≠ JStr sv)
  ∧ (validate_request sv request_data = inl UnexpectedKeyword ↔
       Forall (λ g, is_Some (request_data !! g)) required_fields
       ∧ request_data !! "version" = Some (JStr sv)
       ∧ dom request_data ≠ list_to_set required_fields).
Proof.
  pose proof (dom_required request_data) as Hdom.
  assert (HF : Forall (λ g, is_Some (request_data !! g)) required_fields ↔
            is_Some (request_data !! "version")
            ∧ is_Some (request_data !! "request_id")
            ∧ is_Some (request_data !! "source")
            ∧ is_Some (request_data !! "intent")
            ∧ is_Some (request_data !! "expect") ∧ True).
  { unfold required_fields. by rewrite !Forall_cons, Forall_nil. }
  setoid_rewrite HF. clear HF.
  unfold validate_request, required_fields in *.
  destruct (request_data !! "version") as [v|] eqn:E1.
  2: { split_and!.
       - intros f. split.
         + intros [= <-]. exists [], ["request_id"; "source"; "intent"; "expect"].
           by split_and!.
         + intros (before & after & Heq & Hf & Hall).
           destruct before as [|g before]; simplify_eq/=; [done|].
           apply Forall_cons in Hall as [[? ?] _]. congruence.
       - intros v. split; [done|]. by intros ([[? ?] _] & _).
       - split; [done|]. by intros ([[? ?] _] & _). }
  destruct (request_data !! "request_id") as [r|] eqn:E2.
  2: { split_and!.
       - intros f. split.
         + intros [= <-]. exists ["version"], ["source"; "intent"; "expect"].
           split_and!; [done..|]. repeat constructor. by rewrite E1.
         + intros (before & after & Heq & Hf & Hall).
           destruct before as [|g0 [|g1 before]]; simplify_eq/=; [done|].
           apply Forall_cons in Hall as [_ Hall].
           apply Forall_cons in Hall as [[? ?] _]. congruence.
       - intros v'. split; [done|]. by intros ((_ & [? ?] & _) & _).
       - split; [done|]. by intros ((_ & [? ?] & _) & _). }
  destruct (request_data !! "source") as [s|] eqn:E3.
  2: { split_and!.
       - intros f. split.
         + intros [= <-]. exists ["version"; "request_id"], ["intent"; "expect"].
           split_and!; [done..|]. repeat constructor; by rewrite ?E1, ?E2.
         + intros (before & after & Heq & Hf & Hall).
           destruct before as [|g0 [|g1 [|g2 before]]]; simplify_eq/=; [done|].
           do 2 apply Forall_cons in Hall as [_ Hall].
           apply Forall_cons in Hall as [[? ?] _]. congruence.
       - intros v'. split; [done|]. by intros ((_ & _ & [? ?] & _) & _).
       - split; [done|]. by intros ((_ & _ & [? ?] & _) & _). }
  destruct (request_data !! "intent") as [i|] eqn:E4.
  2: { split_and!.
       - intros f. split.
         + intros [= <-]. exists ["version"; "request_id"; "source"], ["expect"].
           split_and!; [done..|]. repeat constructor; by rewrite ?E1, ?E2, ?E3.
         + intros (before & after & Heq & Hf & Hall).
           destruct before as [|g0 [|g1 [|g2 [|g3 before]]]]; simplify_eq/=; [done|].
           do 3 apply Forall_cons in Hall as [_ Hall].
           apply Forall_cons in Hall as [[? ?] _]. congruence.
       - intros v'. split; [done|]. by intros ((_ & _ & _ & [? ?] & _) & _).
       - split; [done|]. by intros ((_ & _ & _ & [? ?] & _) & _). }
  destruct (request_data !! "expect") as [e|] eqn:E5.
  2: { split_and!.
       - intros f. split.
         + intros [= <-].
           exists ["version"; "request_id"; "source"; "intent"], [].
           split_and!; [done..|].
           repeat constructor; by rewrite ?E1, ?E2, ?E3, ?E4.
         + intros (before & after & Heq & Hf & Hall).
           destruct before as [|g0 [|g1 [|g2 [|g3 [|g4 before]]]]];
             simplify_eq/=; [done|]. by destruct before.
       - intros v'. split; [done|]. by intros ((_ & _ & _ & _ & [? ?] & _) & _).
       - split; [done|]. by intros ((_ & _ & _ & _ & [? ?] & _) & _). }
  assert (Hmiss : ∀ f, ¬ ∃ before after : list string,
            ["version"; "request_id"; "source"; "intent"; "expect"]
            = before ++ f :: after ∧ request_data !! f = None
            ∧ Forall (λ g, is_Some (request_data !! g)) before).
  { intros f (before & after & Heq & Hf & _).
    destruct before as [|g0 [|g1 [|g2 [|g3 [|g4 before]]]]];
      simplify_eq/=; try congruence. by destruct before. }
  assert (Hall : is_Some (Some v) ∧ is_Some (Some r) ∧ is_Some (Some s)
                 ∧ is_Some (Some i) ∧ is_Some (Some e) ∧ True)
    by (by split_and!).
  destruct (version_differs sv v) eqn:Ev.
  { assert (v ≠ JStr sv) as Hne.
    { intros Heq. apply version_differs_false in Heq. congruence. }
    split_and!.
    - intros f. split; [done|]. intros H. by destruct (Hmiss f).
    - intros v'. split; [by intros [= <-]|]. by intros (_ & [= <-] & _).
    - split; [done|]. intros (_ & [= ->] & _). done. }
  apply version_differs_false in Ev as ->.
  case_bool_decide as Hsub.
  - split_and!.
    + intros f. split; [done|]. intros H. by destruct (Hmiss f).
    + intros v'. split; [done|]. by intros (_ & [= <-] & ?).
    + split; [done|]. intros (_ & _ & Hne). destruct Hne.
      apply Hdom. split_and!; by try eexists.
  - split_and!.
    + intros f. split; [done|]. intros H. by destruct (Hmiss f).
    + intros v'. split; [done|]. by intros (_ & [= <-] & ?).
    + split; [|done]. intros _. split_and!; try done.
      intros Heq. apply Hdom in Heq as [? _]. done.
Qed.

(** An accepted request, for the examples. *)
Example validate_request_accepts_example :
  let request_data : gmap string json :=
    {[ "version" := JStr "1.0.0"; "request_id" := JStr "r-1";
       "source" := JNull; "intent" := JObj [("action", JStr "get_status")];
       "expect" := JNull ]} in
  validate_request service_version request_data
  = inr {| version := JStr "1.0.0"; request_id := JStr "r-1"; source := JNull;
           intent := JObj [("action", JStr "get_status")]; expect := JNull |}.
Proof. vm_compute. reflexivity. Qed.

(** [handle_request] answers 200, 400 or 500.  It answers 200 exactly when
    the request passes validation and [_process_intent] returns; the
    response then carries that result and the [request_id] of the request.
    Every other response has an empty result and carries the [request_id]
    of the request when there is one, a fresh identifier otherwise.  A
    missing field or a wrong version is answered 400 and a key that is not
    a field 500, in both cases without [_process_intent] being consulted. *)
Theorem handle_request_status
    (process_intent : APIRequest → Outcome json) (fresh_uuid : string)
    (request_data : gmap string json) :
  let resp := handle_request process_intent fresh_uuid request_data in
  (status_code resp = 200 ∨ status_code resp = 400 ∨ status_code resp = 500)
  ∧ (status_code resp = 200 ↔
       ∃ req r, validate_request service_version request_data = inr req
                ∧ process_intent req = Returned r)
  ∧ (status_code resp = 200 →
       ∃ req, validate_request service_version request_data = inr req
         ∧ process_intent req = Returned (default JNull (response_result resp))
         ∧ is_Some (response_result resp)
         ∧ request_data !! "request_id" = Some (response_request_id resp))
  ∧ (status_code resp ≠ 200 →
       response_result resp = None
       ∧ response_request_id resp
         = default (JStr fresh_uuid) (request_data !! "request_id"))
  ∧ (∀ e, validate_request service_version request_data = inl e →
       status_code resp = match e with UnexpectedKeyword => 500 | _ => 400 end).
Proof.
  intros resp. subst resp. unfold handle_request.
  destruct (validate_request service_version request_data) as [e|req] eqn:Ev.
  - assert (Hcode : ∃ c, (c = 400 ∨ c = 500)
              ∧ c = match e with UnexpectedKeyword => 500 | _ => 400 end
              ∧ match e with
                | MissingField _ | VersionMismatch _ =>
                    {| response_request_id :=
                         default (JStr fresh_uuid) (request_data !! "request_id");
                       response_result := None; status_code := 400 |}
                | UnexpectedKeyword =>
                    {| response_request_id :=
                         default (JStr fresh_uuid) (request_data !! "request_id");
                       response_result := None; status_code := 500 |}
                end
                = {| response_request_id :=
                       default (JStr fresh_uuid) (request_data !! "request_id");
                     response_result := None; status_code := c |}).
    { destruct e; eexists; (split; [|split; reflexivity]); auto. }
    destruct Hcode as (c & Hc & Hce & ->). simpl. split_and!.
    + lia.
    + split; [lia|]. by intros (? & ? & ? & _).
    + lia.
    + done.
    + by intros ? [= <-].
  - pose proof (validate_request_request_id _ _ _ Ev) as Hid.
    destruct (process_intent req) as [r| |] eqn:Ep; simpl; split_and!;
      try done; try lia; try (by auto).
    + split; [|done]. intros _. by exists req, r.
    + intros _. exists req. by split_and!.
    + split; [done|]. intros (? & ? & [= <-] & ?). congruence.
    + split; [done|]. intros (? & ? & [= <-] & ?). congruence.
Qed.

Lemma handle_request_status_witness :
  let request_data : gmap string json :=
    {[ "version" := JStr "1.0.0"; "request_id" := JStr "r-1";
       "source" := JNull; "intent" := JNull; "expect" := JNull;
       "extra" := JNull ]} in
  validate_request service_version request_data = inl UnexpectedKeyword
  ∧ status_code (handle_request (λ _, Returned JNull) "u-1" request_data) = 500
  ∧ response_request_id (handle_request (λ _, Returned JNull) "u-1" request_data)
    = JStr "r-1".
Proof.
  intros request_data.
  assert (Hv : validate_request service_version request_data = inl UnexpectedKeyword)
    by (vm_compute; reflexivity).
  pose proof (handle_request_status (λ _, Returned JNull) "u-1" request_data)
    as (_ & _ & _ & Herr & Hval).
  pose proof (Hval _ Hv) as H500.
  split; [exact Hv|]. split; [exact H500|].
  refine (proj2 (Herr _)). rewrite H500. discriminate.
Defined.

(* ===================================================================== *)
(** * JitterBuffer: further invariants                                     *)
(* ===================================================================== *)

Lemma insert_by_key_sorted {A : Type} (key : A → Z) (x : A) (l : list A) :
  StronglySorted (λ a b, key a ≤ key b) l →
  StronglySorted (λ a b, key a ≤ key b) (insert_by_key key x l).
Proof.
  induction 1 as [|y l Hs IH Hy]; simpl.
  - repeat constructor.
  - destruct (key x <=? key y) eqn:E.
    + apply Z.leb_le in E. constructor; [by constructor|].
      constructor; [done|]. eapply Forall_impl; [exact Hy|]. simpl. lia.
    + apply Z.leb_gt in E. constructor; [done|].
      rewrite insert_by_key_perm. constructor; [lia|done].
Qed.

Lemma py_sorted_sorted {A : Type} (key : A → Z) (l : list A) :
  StronglySorted (λ a b, key a ≤ key b) (py_sorted key l).
Proof.
  induction l as [|x l IH]; simpl; [constructor|]. by apply insert_by_key_sorted.
Qed.

Lemma add_frame_popped_sorted (jb : JitterBuffer) (d : bytes) (s : Z) :
  sorted_by_seq (pending (add_frame_popped jb d s).1).
Proof.
  pose proof (py_sorted_sorted fst
                (Deque.items (Deque.append (buffer jb) (s, d)))) as Hs.
  destruct (add_frame_popped_cases jb d s) as [(x & rest & Hl & ->)|[_ ->]];
    unfold sorted_by_seq, pending; simpl; [|done].
  rewrite Hl in Hs. by apply StronglySorted_inv in Hs as [? _].
Qed.

Lemma run_popped_sorted (calls : list (bytes * Z)) (jb : JitterBuffer) :
  sorted_by_seq (pending jb) → sorted_by_seq (pending (run_popped jb calls).1).
Proof.
  revert jb. induction calls as [|[d s] calls IH]; intros jb Hs; simpl; [done|].
  pose proof (add_frame_popped_sorted jb d s) as H1.
  destruct (add_frame_popped jb d s) as [jb1 r]. specialize (IH jb1 H1).
  by destruct (run_popped jb1 calls).
Qed.

(** In every state reached from a fresh buffer the pending frames are
    sorted by sequence number, so the frame at the head, the only one
    [add_frame] looks at, has the lowest pending sequence number. *)
Theorem pending_frames_stay_sorted (jb : JitterBuffer) :
  reachable jb →
  sorted_by_seq (pending jb)
  ∧ ∀ q x rest, pending jb = (q, x) :: rest → Forall (λ p, q ≤ p.1) rest.
Proof.
  intros (max_size & jb0 & calls & Hinit & <-).
  assert (Hs : sorted_by_seq (pending (run jb0 calls).1)).
  { rewrite run_unfold. simpl. apply run_popped_sorted.
    unfold JitterBuffer_init, Deque.new_bounded in Hinit.
    destruct (max_size <? 0); [done|]. injection Hinit as <-. constructor. }
  split; [done|]. intros q x rest Heq. rewrite Heq in Hs.
  by apply StronglySorted_inv in Hs as [_ ?].
Qed.

Lemma pending_frames_stay_sorted_witness :
  sorted_by_seq
    (pending (run JitterBuffer_default
                [([Byte.x0c], 7); ([Byte.x0a], 5); ([Byte.x0b], 6)]).1).
Proof.
  refine (proj1 (pending_frames_stay_sorted _ _)).
  by exists 10, JitterBuffer_default,
    [([Byte.x0c], 7); ([Byte.x0a], 5); ([Byte.x0b], 6)].
Defined.

(** The depth of the buffer never goes down: in every state reached from a
    fresh buffer an [add_frame] call leaves at least as many pending frames
    as it found, one more when it releases nothing (a fresh buffer of
    capacity 0 apart, which drops its first frame). *)
Theorem depth_never_decreases (jb : JitterBuffer) (d : bytes) (s : Z) :
  reachable jb →
  (get_buffer_size jb ≤ get_buffer_size (add_frame jb d s).1)%nat
  ∧ (Deque.maxlen (buffer jb) ≠ Some 0%nat → (add_frame jb d s).2 = None →
     get_buffer_size (add_frame jb d s).1 = S (get_buffer_size jb)).
Proof.
  intros Hr. rewrite add_frame_unfold. simpl.
  destruct (add_frame_popped jb d s) as [jb' r] eqn:E. simpl.
  destruct (reachable_shape jb Hr) as [Hm|[_ Hp]].
  - pose proof (add_frame_popped_size _ _ _ _ _ Hm E) as Hsz.
    split; [destruct r; simpl in Hsz; lia|].
    intros _ Hnone. destruct r; [done|]. simpl in Hsz. lia.
  - unfold get_buffer_size at 1 3. unfold pending in Hp. rewrite Hp. simpl.
    split; [lia|]. intros Hm Hnone. destruct r; [done|].
    destruct (add_frame_popped_cases jb d s) as [(x & rest & _ & E')|[_ E']];
      rewrite E' in E; [done|]. injection E as <-.
    unfold get_buffer_size. simpl. rewrite py_sorted_length.
    unfold Deque.append. rewrite Hp. simpl.
    destruct (Deque.maxlen (buffer jb)) as [[|n]|]; done.
Qed.

Lemma depth_never_decreases_witness :
  let jb := (run JitterBuffer_default [([Byte.x0a], 5)]).1 in
  reachable jb
  ∧ (get_buffer_size jb ≤ get_buffer_size (add_frame jb [Byte.x0b] 0).1)%nat.
Proof.
  intros jb.
  assert (Hr : reachable jb)
    by (by exists 10, JitterBuffer_default, [([Byte.x0a], 5)]).
  split; [exact Hr|].
  exact (proj1 (depth_never_decreases jb [Byte.x0b] 0 Hr)).
Defined.

(** No pending frame carries [expected_seq]. *)
Lemma blocked_step (jb : JitterBuffer) (d : bytes) (s : Z) :
  Forall (λ p, p.1 ≠ expected_seq jb) (pending jb) → s ≠ expected_seq jb →
  ∃ jb', add_frame_popped jb d s = (jb', None)
    ∧ expected_seq jb' = expected_seq jb
    ∧ Forall (λ p, p.1 ≠ expected_seq jb') (pending jb').
Proof.
  intros Hall Hs.
  destruct (append_dropped (buffer jb) (s, d)) as [dr Hdr].
  assert (Happ : Forall (λ p, p.1 ≠ expected_seq jb)
                   (py_sorted fst (Deque.items (Deque.append (buffer jb) (s, d))))).
  { rewrite py_sorted_perm.
    assert (Forall (λ p, p.1 ≠ expected_seq jb)
              (dr ++ Deque.items (Deque.append (buffer jb) (s, d)))) as Hf.
    { rewrite Hdr. apply Forall_app. split; [done|]. by repeat constructor. }
    by apply Forall_app in Hf as [_ ?]. }
  destruct (add_frame_popped_cases jb d s) as [(x & rest & Hl & _)|[_ E]].
  - rewrite Hl in Happ. apply Forall_cons in Happ as [Hne _]. done.
  - eexists. split; [exact E|]. by split.
Qed.

Lemma released_replicate_None {X : Type} (n : nat) :
  released (replicate n (@None X)) = [].
Proof. unfold released. induction n as [|n IH]; [done|exact IH]. Qed.

(** A missing frame stalls the stream: from a state in which no pending
    frame carries [expected_seq], as long as no frame with that sequence
    number comes in, no call releases anything and [expected_seq] stays
    where it is, whatever the capacity. *)
Theorem missing_frame_stalls_release (jb : JitterBuffer) (calls : list (bytes * Z)) :
  Forall (λ p, p.1 ≠ expected_seq jb) (pending jb) →
  Forall (λ c, c.2 ≠ expected_seq jb) calls →
  (run jb calls).2 = replicate (length calls) None
  ∧ expected_seq (run jb calls).1 = expected_seq jb
  ∧ (Deque.maxlen (buffer jb) = None →
     get_buffer_size (run jb calls).1 = (get_buffer_size jb + length calls)%nat).
Proof.
  intros Hp Hc. rewrite run_unfold. simpl.
  assert (Hrel : (run_popped jb calls).2 = replicate (length calls) None
                 ∧ expected_seq (run_popped jb calls).1 = expected_seq jb).
  { revert jb Hp Hc. induction calls as [|[d s] calls IH]; intros jb Hp Hc; simpl.
    - done.
    - apply Forall_cons in Hc as [Hs Hc]. simpl in Hs.
      destruct (blocked_step jb d s Hp Hs) as (jb1 & -> & He & Hp1).
      rewrite <- He in Hc. destruct (IH jb1 Hp1 Hc) as [IH1 IH2].
      destruct (run_popped jb1 calls) as [jb2 rs]. simpl in *.
      rewrite IH1, IH2. done. }
  destruct Hrel as [Hrel He]. rewrite Hrel, He. split_and!; try done.
  - by rewrite fmap_replicate.
  - intros Hm. pose proof (run_popped_size_unbounded jb calls Hm) as Hsz.
    rewrite Hrel in Hsz.
    rewrite released_replicate_None in Hsz. simpl in Hsz. lia.
Qed.

Lemma missing_frame_stalls_release_witness :
  let jb := (run JitterBuffer_default [([Byte.x0a], 1)]).1 in
  (run jb [([Byte.x0b], 2); ([Byte.x0c], 3)]).2 = [None; None]
  ∧ get_buffer_size (run jb [([Byte.x0b], 2); ([Byte.x0c], 3)]).1 = 3%nat.
Proof.
  intros jb.
  assert (Hp : Forall (λ p, p.1 ≠ expected_seq jb) (pending jb))
    by (repeat constructor; discriminate).
  assert (Hc : Forall (λ c : bytes * Z, c.2 ≠ expected_seq jb)
                 [([Byte.x0b], 2); ([Byte.x0c], 3)])
    by (repeat constructor; discriminate).
  pose proof (missing_frame_stalls_release jb _ Hp Hc) as (H1 & _ & H3).
  split; [exact H1|]. exact (H3 eq_refl).
Defined.

(* ===================================================================== *)
(** * The init handshake: what is not accepted                             *)
(* ===================================================================== *)

(** No session is created unless the init message is accepted: when the
    first message is not an init message, or [create_session] raises, the
    manager is left as it was; when it is accepted, exactly one session is
    added, held under the [session_id] of the message when it gives one. *)
Theorem handle_init_creates_only_when_accepted
    (mgr mgr' : ConnectionManager) (ws : nat) (init_data : gmap string json)
    (env : Env) (o : InitOutcome) :
  handle_init mgr ws init_data env = Some (mgr', o) →
  match o with
  | InitAccepted s =>
      get_active_session_count mgr' = S (get_active_session_count mgr)
      ∧ init_data !! "type" = Some (JStr "init")
      ∧ get_session_by_id mgr' (session_id s) = Some s
      ∧ websocket s = ws
      ∧ jitter_buffer s = JitterBuffer_default
      ∧ enable_translation s = truthy (translate_to s)
      ∧ (∀ id, init_data !! "session_id" = Some (JStr id) → session_id s = id)
  | InitRejected => mgr' = mgr ∧ init_data !! "type" ≠ Some (JStr "init")
  | InitRaised _ => mgr' = mgr ∧ init_data !! "type" = Some (JStr "init")
  end.
Proof.
  unfold handle_init. intros H.
  destruct (init_data !! "type") as [[| | |ty| |]|]; try by injection H as <- <-.
  destruct (String.eqb ty "init") eqn:Et.
  2: { injection H as <- <-. split; [done|]. intros [= ->]. done. }
  apply String.eqb_eq in Et as ->.
  destruct (session_id_arg _) as [sid|] eqn:Es; [|done].
  destruct (create_session mgr ws sid None env) as [mgr1 [e|s]] eqn:E.
  - injection H as <- <-. split; [|done].
    destruct (create_session_cases mgr ws sid None env)
      as [[_ E']|[(_ & _ & E')|(_ & _ & E')]]; rewrite E' in E;
      by injection E as <-.
  - injection H as <- <-.
    pose proof (create_session_registered _ _ _ _ _ _ _ E) as (Hreg & Hcount & _).
    apply create_session_maps in E as (_ & Hws & Hsid & _ & Hjb & _).
    unfold get_active_session_count, get_session_by_id, store_session in *.
    simpl. rewrite lookup_insert_eq, map_size_insert_Some by (by eexists).
    split_and!; try done.
    intros id Hid. rewrite Hid in Es. injection Es as <-. by rewrite Hsid.
Qed.

Lemma handle_init_creates_only_when_accepted_witness :
  ∃ mgr' e,
    handle_init (example_manager 2) 2%nat
      {[ "type" := JStr "init"; "session_id" := JStr "alice" ]} example_env
    = Some (mgr', InitRaised e)
    ∧ mgr' = example_manager 2.
Proof.
  destruct (handle_init (example_manager 2) 2%nat
              {[ "type" := JStr "init"; "session_id" := JStr "alice" ]}
              example_env) as [[mgr' [|e|s]]|] eqn:E;
    try (vm_compute in E; discriminate E).
  exists mgr', e. split; [reflexivity|].
  exact (proj1 (handle_init_creates_only_when_accepted _ _ _ _ _ _ E)).
Defined.
